(** * model_count.c: the scanner and the frequency table

    A shallow embedding of [src/model_count.c] and of the helper
    [get_count] of [src/tests/test_model_count.c].

    Conventions of the model.
    - A byte is an [ascii]; an [int] that holds a byte or [EOF] is an
      [option ascii] ([None] is [EOF]).
    - A [FILE *] open for reading is the list of the bytes not read yet;
      [fgetc] takes the head, [ungetc] puts one byte back in front.
    - A [char *] is the list of the bytes of its buffer that come before
      the terminating NUL written by the code; the C library functions
      ([strcmp], [strlen], the loop of [hash_str]) stop at the first NUL
      byte, and so do their models.
    - [uint64_t] and [size_t] (64 bits) are [Z] with the reduction modulo
      [2^64] written at every operation that can wrap; [int] has 32 bits.
    - An [Entry] chain is the list of its entries, head first; the bucket
      array is the list of the chains.
    - [malloc]/[calloc]/[realloc] succeed ([die] is not modelled), and the
      progress report (clock, [/proc], [stderr]) is left out: it reads the
      table and the counter and changes neither.
    - Where C leaves the behaviour undefined the model is still a total
      function: [h % 0] is [Z.modulo] by 0 and a read past the end of the
      bucket array gives the empty chain; the statements about the table
      are made under [table_wf], which excludes both. The overflow of the
      [int] depth counter of [consume_json_value] is a result of its own,
      [SkipUndefined]. *)

From Stdlib Require Import ZArith Lia Ascii String.
From stdpp Require Import base list strings numbers sorting.

Open Scope Z_scope.

(** ** Bytes *)

Definition code (c : ascii) : Z := Z.of_N (N_of_ascii c).

Definition NUL : ascii := "000"%char.
Definition dquote : ascii := "034"%char.
Definition backslash : ascii := "\"%char.

Definition is_char (c d : ascii) : bool := Ascii.eqb c d.

(** [isspace] in the "C" locale: space, \t, \n, \v, \f, \r. *)
Definition isspace (c : ascii) : bool :=
  (code c =? 32) || ((9 <=? code c) && (code c <=? 13)).

(** [isxdigit]: 0-9, A-F, a-f. *)
Definition isxdigit (c : ascii) : bool :=
  ((48 <=? code c) && (code c <=? 57))
  || ((65 <=? code c) && (code c <=? 70))
  || ((97 <=? code c) && (code c <=? 102)).

(** ** C strings *)

(** The string a [char *] denotes: the bytes before the first NUL. *)
Fixpoint c_str (s : list ascii) : list ascii :=
  match s with
  | [] => []
  | c :: s' => if is_char c NUL then [] else c :: c_str s'
  end.

(** [strcmp(a, b) == 0]. *)
Fixpoint strcmp_eq (a b : list ascii) : bool :=
  match a, b with
  | [], [] => true
  | [], d :: _ => is_char d NUL
  | c :: _, [] => is_char c NUL
  | c :: a', d :: b' =>
      if is_char c d then (if is_char c NUL then true else strcmp_eq a' b')
      else false
  end.

Definition xstrdup (s : list ascii) : list ascii := c_str s.

(** ** The hash table *)

Definition wrap64 (z : Z) : Z := z mod 2 ^ 64.

Definition KEY_MODEL : list ascii := list_ascii_of_string "model".
Definition INITIAL_BUCKETS : Z := 4096.
Definition LOAD_FACTOR_NUM : Z := 3.
Definition LOAD_FACTOR_DEN : Z := 4.

Record Entry := mkEntry { key : list ascii; count : Z }.

Abbreviation chain := (list Entry).

Record HashTable := mkTable {
  buckets : list chain;
  bucket_count : Z;
  size : Z
}.

#[global] Instance Entry_inhabited : Inhabited Entry := populate (mkEntry [] 0).

Fixpoint hash_loop (h : Z) (s : list ascii) : Z :=
  match s with
  | [] => h
  | c :: s' =>
      if is_char c NUL then h
      else hash_loop (wrap64 (Z.lxor h (code c) * 1099511628211)) s'
  end.

Definition hash_str (s : list ascii) : Z := hash_loop 1469598103934665603 s.

(** The index [(size_t)(hash_str(k) % n)] of the bucket of [k] among [n]. *)
Definition bucket_of (n : Z) (k : list ascii) : nat :=
  Z.to_nat (hash_str k mod n).

Definition table_init (nbuckets : Z) : HashTable :=
  {| buckets := replicate (Z.to_nat nbuckets) [];
     bucket_count := nbuckets;
     size := 0 |}.

(** The body of the inner loop of [table_rehash]: the entry [e] is put
    in front of the chain of its bucket in the new array. *)
Definition relink (new_count : Z) (nb : list chain) (e : Entry) : list chain :=
  let idx := bucket_of new_count (key e) in
  <[idx := e :: nb !!! idx]> nb.

Definition table_rehash (t : HashTable) : HashTable :=
  let new_count := wrap64 (bucket_count t * 2) in
  let new_buckets := replicate (Z.to_nat new_count) [] in
  let new_buckets :=
    foldl (fun nb i => foldl (relink new_count) nb (buckets t !!! i))
          new_buckets (seq 0 (Z.to_nat (bucket_count t))) in
  {| buckets := new_buckets; bucket_count := new_count; size := size t |}.

(** The [while (e)] loop of [table_inc]: [Some c'] is the chain with the
    count of the entry of [k] incremented, [None] says no entry has [k]. *)
Fixpoint chain_inc (c : chain) (k : list ascii) : option chain :=
  match c with
  | [] => None
  | e :: c' =>
      if strcmp_eq (key e) k
      then Some (mkEntry (key e) (wrap64 (count e + 1)) :: c')
      else cons e <$> chain_inc c' k
  end.

(** The [if] that opens [table_inc]. *)
Definition table_grow (t : HashTable) : HashTable :=
  if wrap64 (bucket_count t * LOAD_FACTOR_NUM) <=? wrap64 (size t * LOAD_FACTOR_DEN)
  then table_rehash t else t.

(** The rest of [table_inc]: the walk along the chain of the bucket of
    [k], and the new entry when no entry has [k]. *)
Definition table_put (t : HashTable) (k : list ascii) : HashTable :=
  let idx := bucket_of (bucket_count t) k in
  match chain_inc (buckets t !!! idx) k with
  | Some c' =>
      {| buckets := <[idx := c']> (buckets t);
         bucket_count := bucket_count t;
         size := size t |}
  | None =>
      let n := mkEntry (xstrdup k) 1 in
      {| buckets := <[idx := n :: buckets t !!! idx]> (buckets t);
         bucket_count := bucket_count t;
         size := wrap64 (size t + 1) |}
  end.

Definition table_inc (t : HashTable) (k : list ascii) : HashTable :=
  table_put (table_grow t) k.

(** [get_count] of the test file: the chain walk of [table_inc], reading. *)
Fixpoint chain_count (c : chain) (k : list ascii) : Z :=
  match c with
  | [] => 0
  | e :: c' => if strcmp_eq (key e) k then count e else chain_count c' k
  end.

Definition get_count (t : HashTable) (model : list ascii) : Z :=
  let idx := bucket_of (bucket_count t) model in
  chain_count (buckets t !!! idx) model.

(** ** The scanner *)

Definition stream := list ascii.

Definition fgetc (fp : stream) : option ascii * stream :=
  match fp with
  | [] => (None, [])
  | c :: fp' => (Some c, fp')
  end.

Definition ungetc (c : ascii) (fp : stream) : stream := c :: fp.

(** [skip_ws]: the first byte that is not white space (or [EOF]), read. *)
Fixpoint skip_ws (fp : stream) : option ascii * stream :=
  match fp with
  | [] => (None, [])
  | c :: fp' => if isspace c then skip_ws fp' else (Some c, fp')
  end.

(** The [switch] on the byte after a backslash. *)
Definition unescape (esc : ascii) : ascii :=
  if is_char esc dquote then dquote
  else if is_char esc backslash then backslash
  else if is_char esc "/" then "/"%char
  else if is_char esc "b" then "008"%char
  else if is_char esc "f" then "012"%char
  else if is_char esc "n" then "010"%char
  else if is_char esc "r" then "013"%char
  else if is_char esc "t" then "009"%char
  else esc.

(** [read_json_string]: [None] is the [NULL] result; [Some (buf, fp')] is
    the buffer (the [len] bytes stored before the final NUL) and the
    stream after the closing quote. *)
Fixpoint read_json_string (fp : stream) : option (list ascii * stream) :=
  match fp with
  | [] => None
  | c :: fp1 =>
      if is_char c dquote then Some ([], fp1)
      else if is_char c backslash then
        match fp1 with
        | [] => None
        | esc :: fp2 =>
            if is_char esc "u" then
              match fp2 with
              | h1 :: h2 :: h3 :: h4 :: fp3 =>
                  if isxdigit h1 && isxdigit h2 && isxdigit h3 && isxdigit h4
                  then prod_map (cons "?"%char) id <$> read_json_string fp3
                  else None
              | _ => None
              end
            else prod_map (cons (unescape esc)) id <$> read_json_string fp2
        end
      else prod_map (cons c) id <$> read_json_string fp1
  end.

(** What [consume_json_value] does: it returns 1 with the stream at
    [fp], returns 0, or overflows the [int] depth counter, which C leaves
    undefined. *)
Inductive skip_outcome :=
  | Skipped (fp : stream)
  | SkipFailed
  | SkipUndefined.

Definition INT_MAX : Z := 2 ^ 31 - 1.

Definition is_open (c : ascii) : bool := is_char c "{" || is_char c "[".
Definition is_close (c : ascii) : bool := is_char c "}" || is_char c "]".

(** The [while (depth > 0)] loop of [consume_json_value]. *)
Fixpoint container_loop (depth : Z) (in_string esc : bool) (fp : stream)
    : skip_outcome :=
  if depth <=? 0 then Skipped fp else
  match fp with
  | [] => SkipFailed
  | c :: fp' =>
      if in_string then
        if esc then container_loop depth true false fp'
        else if is_char c backslash then container_loop depth true true fp'
        else if is_char c dquote then container_loop depth false false fp'
        else container_loop depth true false fp'
      else if is_char c dquote then container_loop depth true esc fp'
      else if is_open c then
        if depth =? INT_MAX then SkipUndefined
        else container_loop (depth + 1) false esc fp'
      else if is_close c then container_loop (depth - 1) false esc fp'
      else container_loop depth false esc fp'
  end.

Definition is_delim (c : ascii) : bool :=
  is_char c "," || is_char c "}" || is_char c "]".

(** The last loop of [consume_json_value] with the [ungetc] after it;
    [c] is the current byte. *)
Fixpoint scalar_loop (c : option ascii) (fp : stream) {struct fp} : stream :=
  match c with
  | None => fp
  | Some c =>
      if is_delim c then ungetc c fp
      else if isspace c then fp
      else match fp with
           | [] => []   (* [fgetc] gives [EOF]: the loop ends *)
           | c' :: fp' => scalar_loop (Some c') fp'
           end
  end.

Definition consume_json_value (fp : stream) (first : option ascii)
    : skip_outcome :=
  if bool_decide (first = Some dquote) then
    match read_json_string fp with
    | None => SkipFailed
    | Some (_, fp') => Skipped fp'
    end
  else if bool_decide (first = Some "{"%char) || bool_decide (first = Some "["%char)
  then container_loop 1 false false fp
  else Skipped (scalar_loop first fp).

(** The state [process_file] works on through its pointers, and
    [emitted], which is not in the code: the arguments of the calls of
    [table_inc], oldest first. *)
Record scan_state := mkState {
  table : HashTable;
  models_seen : Z;
  emitted : list (list ascii)
}.

(** The result of [process_file]: its return value with the state it
    leaves, or undefined behaviour inside [consume_json_value]. *)
Inductive outcome :=
  | Returns (r : Z) (st : scan_state)
  | Undefined.

(** The call of [table_inc] on the value and the increment of the
    counter behind [models_seen]. *)
Definition emit (st : scan_state) (val : list ascii) : scan_state :=
  {| table := table_inc (table st) val;
     models_seen := wrap64 (models_seen st + 1);
     emitted := emitted st ++ [c_str val] |}.

(** One turn of the [while] loop of [process_file]; [continue] is the
    rest of the loop. *)
Definition process_body (continue : stream → scan_state → option outcome)
    (fp : stream) (st : scan_state) : option outcome :=
  match fgetc fp with
  | (None, _) => Some (Returns 1 st)
  | (Some c, fp) =>
      if negb (is_char c dquote) then continue fp st else
      match read_json_string fp with
      | None => Some (Returns 0 st)
      | Some (key, fp) =>
          let '(c, fp) := skip_ws fp in
          if negb (bool_decide (c = Some ":"%char)) then continue fp st else
          let '(c, fp) := skip_ws fp in
          match c with
          | None => Some (Returns 1 st)
          | Some cv =>
              if strcmp_eq key KEY_MODEL && is_char cv dquote then
                match read_json_string fp with
                | None => Some (Returns 0 st)
                | Some (val, fp) => continue fp (emit st val)
                end
              else
                match consume_json_value fp c with
                | SkipFailed => Some (Returns 0 st)
                | SkipUndefined => Some Undefined
                | Skipped fp => continue fp st
                end
          end
      end
  end.

(** The loop, cut after [fuel] turns ([None]). *)
Fixpoint process_loop (fuel : nat) (fp : stream) (st : scan_state)
    : option outcome :=
  match fuel with
  | O => None
  | S fuel => process_body (process_loop fuel) fp st
  end.

(** Every turn reads a byte, so one turn more than the stream has bytes
    is enough ([process_file_total]). *)
Definition process_file (fp : stream) (st : scan_state) : option outcome :=
  process_loop (S (length fp)) fp st.

(** The state [main] and the tests start from. *)
Definition initial_state : scan_state :=
  {| table := table_init INITIAL_BUCKETS; models_seen := 0; emitted := [] |}.

(** Test inputs are written with an apostrophe for each double quote. *)
Definition json (s : string) : stream :=
  (fun c => if is_char c "'" then dquote else c) <$> list_ascii_of_string s.

Definition test_input_1 : stream :=
  json "[{'id':1,'model':'RDV2','serial':'A'},{'id':2,'model':'ABC','serial':'B'},{'id':3,'model':'RDV2','serial':'C'}]".
Definition test_input_2 : stream :=
  json "[{'id':1,'serial':'A'},{'id':2,'model':'XYZ','serial':'B'},{'id':3,'nested':{'model':'RDV2'},'serial':'C'}]".
Definition test_input_3 : stream :=
  json "[{'model':'RDV2'},{'model':123},{'model':'RDV2'},{'model':'ABC'}]".

Definition str (s : string) : list ascii := list_ascii_of_string s.

(** ** The report of [main] *)

(** The sign of [strcmp(a, b)]: the bytes are compared as [unsigned char]
    up to the first difference, or the NUL that ends both. *)
Fixpoint strcmp (a b : list ascii) : comparison :=
  match a, b with
  | [], [] => Eq
  | [], d :: _ => if is_char d NUL then Eq else Lt
  | c :: _, [] => if is_char c NUL then Eq else Gt
  | c :: a', d :: b' =>
      if is_char c d then (if is_char c NUL then Eq else strcmp a' b')
      else code c ?= code d
  end.

Record Pair := mkPair { pair_key : list ascii; pair_count : Z }.

(** The sign of [pair_cmp(a, b)]: [Gt] for 1, [Lt] for -1, the sign of
    [strcmp] otherwise. *)
Definition pair_cmp (pa pb : Pair) : comparison :=
  if pair_count pa <? pair_count pb then Gt
  else if pair_count pb <? pair_count pa then Lt
  else strcmp (pair_key pa) (pair_key pb).

(** [a] may stand before [b] in an array sorted with [pair_cmp]. *)
Definition pair_le (a b : Pair) : Prop := pair_cmp a b ≠ Gt.

#[global] Instance pair_le_dec : RelDecision pair_le.
Proof. intros a b. unfold pair_le. apply _. Defined.

(** The contract of the C library for [qsort(l, n, size, pair_cmp)]:
    the array holds the same elements, in an order that [pair_cmp]
    accepts. *)
Definition qsort_result (l l' : list Pair) : Prop :=
  l' ≡ₚ l ∧ Sorted pair_le l'.

Definition pair_of (e : Entry) : Pair := mkPair (key e) (count e).

(** The loop of [main] over the buckets and their chains that fills
    [pairs]. *)
Definition collect_pairs (t : HashTable) : list Pair :=
  foldl (λ pairs i, pairs ++ (pair_of <$> buckets t !!! i))
        [] (seq 0 (Z.to_nat (bucket_count t))).

(** What [main] writes on the standard output: the line of
    [printf("Unique models: %zu\n", n)] and the lines of
    [printf("%s: %llu\n", key, count)]. *)
Inductive out_line :=
  | Unique_models (n : Z)
  | Model_line (k : list ascii) (n : Z).

Definition line_of (p : Pair) : out_line :=
  Model_line (c_str (pair_key p)) (pair_count p).

(** The end of [main] after a scan that returned 1. [qsort] is the C
    library's: [merge_sort] stands for it, and on the pairs of a
    well-formed table every array that meets [qsort_result] is the one
    [merge_sort] gives. The array has [size] slots and the loops sort
    and print [size] of them; [xmalloc] is taken to return them, for
    [size] 0 too. *)
Definition report (t : HashTable) : list out_line :=
  let n := Z.to_nat (size t) in
  let pairs := merge_sort pair_le (take n (collect_pairs t)) in
  Unique_models (size t) :: (line_of <$> take n pairs).

Definition EXIT_SUCCESS : Z := 0.
Definition EXIT_FAILURE : Z := 1.

(** What [main] does: it exits with a status after writing [out] on the
    standard output, or the scan was undefined. What it writes on
    [stderr] is left out. *)
Inductive main_result :=
  | Exit (status : Z) (out : list out_line)
  | Main_undefined.

(** [main], with [argv] and with [fopen_rb path], the bytes of the file
    that [fopen(path, "rb")] opens ([None] when it returns [NULL]). *)
Definition main (argv : list (list ascii))
    (fopen_rb : list ascii → option stream) : main_result :=
  match argv with
  | [_; path] =>
      match fopen_rb path with
      | None => Exit EXIT_FAILURE []
      | Some fp =>
          match process_file fp initial_state with
          | Some (Returns r st) =>
              if r =? 0 then Exit EXIT_FAILURE []
              else Exit EXIT_SUCCESS (report (table st))
          | _ => Main_undefined
          end
      end
  | _ => Exit EXIT_FAILURE []
  end.

(** * The vocabulary of the statements *)

(** The byte [c] put in front of the buffer of a result of
    [read_json_string]. *)
Definition prepend (c : ascii) (r : option (list ascii * stream))
    : option (list ascii * stream) :=
  prod_map (cons c) id <$> r.

(** The four bytes after a backslash-u are there and are hexadecimal
    digits. *)
Definition four_hex (fp : stream) : bool :=
  match fp with
  | h1 :: h2 :: h3 :: h4 :: _ =>
      isxdigit h1 && isxdigit h2 && isxdigit h3 && isxdigit h4
  | _ => false
  end.

(** Bytes that [skip_ws] skips. *)
Definition all_space (ws : list ascii) : Prop :=
  Forall (λ c, isspace c = true) ws.

(** What a turn of the loop does after a candidate key, white space, a
    colon and white space: [rest] is empty or starts with the first byte
    of the value. *)
Definition after_colon (key : list ascii) (rest : stream) (st : scan_state)
    : option outcome :=
  match rest with
  | [] => Some (Returns 1 st)
  | cv :: fp =>
      if strcmp_eq key KEY_MODEL && is_char cv dquote then
        match read_json_string fp with
        | None => Some (Returns 0 st)
        | Some (val, fp') => process_file fp' (emit st val)
        end
      else
        match consume_json_value fp (Some cv) with
        | SkipFailed => Some (Returns 0 st)
        | SkipUndefined => Some Undefined
        | Skipped fp' => process_file fp' st
        end
  end.

(** [rest] does not start with white space. *)
Definition starts_value (rest : stream) : Prop :=
  match rest with
  | [] => True
  | c :: _ => isspace c = false
  end.

(** The bytes [b] put in front of the buffer of a result of
    [read_json_string]. *)
Definition prepend_all (b : list ascii) (r : option (list ascii * stream))
    : option (list ascii * stream) :=
  prod_map (app b) id <$> r.

(** A byte that does not end an unquoted token. *)
Definition token_byte (x : ascii) : Prop :=
  is_delim x = false ∧ isspace x = false.

(** A quote that is not escaped closes the literal whose bytes after the
    opening quote are [s]. *)
Fixpoint closes (s : stream) : bool :=
  match s with
  | [] => false
  | c :: s' =>
      if is_char c dquote then true
      else if is_char c backslash then
        match s' with
        | [] => false
        | _ :: s'' => closes s''
        end
      else closes s'
  end.

(** The entries of the table, bucket after bucket, each chain from its
    head. *)
Definition entries (t : HashTable) : list Entry := concat (buckets t).

(** Every entry is in the chain of the bucket its key hashes to. *)
Definition placed (n : Z) (bs : list chain) : Prop :=
  ∀ i c e, bs !! i = Some c → e ∈ c → bucket_of n (key e) = i.

(** The invariant of the table: the array has [bucket_count] chains,
    every entry is in the chain of its bucket, no two entries have the
    same key, the keys are C strings, [size] counts the entries and the
    counts are in the range of [uint64_t]. *)
Record table_wf (t : HashTable) : Prop := {
  wf_len : length (buckets t) = Z.to_nat (bucket_count t);
  wf_pos : 0 < bucket_count t;
  wf_place : placed (bucket_count t) (buckets t);
  wf_nodup : NoDup (key <$> entries t);
  wf_cstr : ∀ e, e ∈ entries t → c_str (key e) = key e;
  wf_size : size t = Z.of_nat (length (entries t));
  wf_count : ∀ e, e ∈ entries t → 0 ≤ count e < 2 ^ 64
}.

(** The new array of [table_rehash], by a loop over the old chains. *)
Definition rehash_buckets (n : Z) (bs : list chain) : list chain :=
  foldl (λ nb c, foldl (relink n) nb c) (replicate (Z.to_nat n) []) bs.

(** The entry after [e->count++]. *)
Definition bump (e : Entry) : Entry := mkEntry (key e) (wrap64 (count e + 1)).

(** The entry [table_inc] allocates for [k]. *)
Definition fresh_entry (k : list ascii) : Entry := mkEntry (xstrdup k) 1.

(** The bounds under which the arithmetic of [table_inc] does not wrap
    and that its growth policy keeps. *)
Definition table_fits (t : HashTable) : Prop :=
  bucket_count t mod 4 = 0
  ∧ size t * 4 ≤ bucket_count t * 3
  ∧ bucket_count t < 2 ^ 62.

(** The keys stored in the table. *)
Definition keys (t : HashTable) : list (list ascii) := key <$> entries t.

(** The sum of the counts of the entries, not reduced. *)
Definition sum_counts (l : list Entry) : Z := foldr (λ e s, count e + s) 0 l.

(** How many of the values [vs] are the string [k]. *)
Fixpoint occurrences (k : list ascii) (vs : list (list ascii)) : nat :=
  match vs with
  | [] => 0
  | v :: vs' => (if strcmp_eq k v then 1 else 0) + occurrences k vs'
  end.

(** The number of distinct strings among [vs]. *)
Definition distinct (vs : list (list ascii)) : nat :=
  length (remove_dups (c_str <$> vs)).

(** The [n]-th of the keys of the example below: two bytes, the digits
    of [n] in base 64, counted from the byte '0'. *)
Definition nkey (n : nat) : list ascii :=
  [ascii_of_nat (48 + n / 64); ascii_of_nat (48 + n mod 64)]%nat.

(** The first [n] of them. *)
Definition distinct_keys (n : nat) : list (list ascii) := nkey <$> seq 0 n.

(** A table with two entries in four buckets. *)
Definition small_table : HashTable :=
  table_inc (table_inc (table_init 4) (str "RDV2")) (str "ABC").

(** The table is the fresh table after one call of [table_inc] for each
    value emitted, in order, and the counter is their number. *)
Definition agrees (st : scan_state) : Prop :=
  table st = foldl table_inc (table_init INITIAL_BUCKETS) (emitted st)
  ∧ models_seen st = wrap64 (Z.of_nat (length (emitted st))).

(** The state a scan of [fp] from [initial_state] returns with. *)
Definition final_state (fp : stream) : scan_state :=
  match process_file fp initial_state with
  | Some (Returns _ st) => st
  | _ => initial_state
  end.

(** The bytes of [s] with a backslash put before every quote and every
    backslash: the least escaping under which [s] can stand in a
    literal. *)
Definition json_escape (s : list ascii) : list ascii :=
  flat_map (λ c, if is_char c dquote || is_char c backslash
                 then [backslash; c] else [c]) s.

(** The lexicographic order on lists of byte values. *)
Fixpoint lexZ (a b : list Z) : comparison :=
  match a, b with
  | [], [] => Eq
  | [], _ :: _ => Lt
  | _ :: _, [] => Gt
  | x :: a', y :: b' =>
      match x ?= y with
      | Eq => lexZ a' b'
      | r => r
      end
  end.

(** The values of the bytes of a C string. *)
Definition codes (s : list ascii) : list Z := code <$> c_str s.

(** [a] comes before [b] in the report: a larger count, or the same
    count and a smaller key. *)
Definition pair_before (a b : Pair) : Prop :=
  pair_count b < pair_count a
  ∨ (pair_count a = pair_count b ∧ strcmp (pair_key a) (pair_key b) = Lt).

(** A value of a field of a document: a string, or an unquoted token
    (a number, [true], [false], [null]). *)
Inductive jvalue :=
  | JString (s : list ascii)
  | JToken (tok : list ascii).

(** A field of a document: its key, the white space around the colon,
    its value and the bytes [fsep] that stand between the value and the
    opening quote of the next key (commas, braces, brackets, white
    space). *)
Record field := mkField {
  fkey : list ascii;
  fws1 : list ascii;
  fws2 : list ascii;
  fvalue : jvalue;
  fsep : list ascii
}.

Definition render_value (v : jvalue) : list ascii :=
  match v with
  | JString s => dquote :: json_escape s ++ [dquote]
  | JToken tok => tok
  end.

Definition render_field (f : field) : list ascii :=
  dquote :: (json_escape (fkey f) ++ [dquote]) ++ fws1 f ++
  ":"%char :: fws2 f ++ render_value (fvalue f) ++ fsep f.

(** The text of a run of fields. *)
Definition render_fields (fs : list field) : list ascii :=
  flat_map render_field fs.

Definition no_quote (l : list ascii) : Prop := Forall (λ c, c ≠ dquote) l.

(** The fields the statement is about: white space where white space is
    meant, no quote between the fields, a token that is not empty, starts
    like no string and no container, holds token bytes only and is
    followed by a comma, a closing brace or bracket, or white space. *)
Definition field_ok (f : field) : Prop :=
  all_space (fws1 f) ∧ all_space (fws2 f) ∧ no_quote (fsep f)
  ∧ match fvalue f with
    | JString _ => True
    | JToken tok =>
        Forall token_byte tok ∧ no_quote tok
        ∧ (∃ t0 tok', tok = t0 :: tok' ∧ is_open t0 = false)
        ∧ (∃ d sep', fsep f = d :: sep' ∧ (is_delim d = true ∨ isspace d = true))
    end.

(** The values a scan of the fields has to emit: the string values of
    the fields whose key is the target key, in order. *)
Fixpoint model_values (fs : list field) : list (list ascii) :=
  match fs with
  | [] => []
  | f :: fs' =>
      match fvalue f with
      | JString s =>
          if strcmp_eq (fkey f) KEY_MODEL then s :: model_values fs'
          else model_values fs'
      | JToken _ => model_values fs'
      end
  end.

(** The result of the container loop, its stream mapped by [f]. *)
Definition skip_map (f : ascii → ascii) (o : skip_outcome) : skip_outcome :=
  match o with
  | Skipped fp => Skipped (f <$> fp)
  | SkipFailed => SkipFailed
  | SkipUndefined => SkipUndefined
  end.

(** A brace for a bracket and a bracket for a brace. *)
Definition swap_kind (c : ascii) : ascii :=
  if is_char c "{" then "["%char
  else if is_char c "[" then "{"%char
  else if is_char c "}" then "]"%char
  else if is_char c "]" then "}"%char
  else c.

(** A byte that the container loop steps over outside a string: no
    quote, no brace and no bracket. *)
Definition plain_byte (c : ascii) : Prop :=
  c ≠ dquote ∧ is_open c = false ∧ is_close c = false.

(** The bytes between the quotes of a string: bytes that are neither a
    quote nor a backslash, and pairs of a backslash and any byte. *)
Inductive string_body : list ascii → Prop :=
  | sb_nil : string_body []
  | sb_byte c s :
      c ≠ dquote → c ≠ backslash → string_body s → string_body (c :: s)
  | sb_escape x s : string_body s → string_body (backslash :: x :: s).

(** Balanced text: plain bytes, closed strings, and balanced text between
    a byte that opens and a byte that closes. A brace may be closed by a
    bracket and a bracket by a brace. *)
Inductive balanced : list ascii → Prop :=
  | bal_nil : balanced []
  | bal_byte c b : plain_byte c → balanced b → balanced (c :: b)
  | bal_string s b :
      string_body s → balanced b → balanced (dquote :: s ++ dquote :: b)
  | bal_nest o b c b' :
      is_open o = true → balanced b → is_close c = true → balanced b' →
      balanced (o :: b ++ c :: b').

(** The content of a container that the end of the stream cuts: balanced
    text up to the end, up to a string that is not closed, or up to a byte
    that opens a container which is cut in its turn. *)
Inductive unclosed : list ascii → Prop :=
  | unc_end b : balanced b → unclosed b
  | unc_string b s : balanced b → closes s = false → unclosed (b ++ dquote :: s)
  | unc_open b o u :
      balanced b → is_open o = true → unclosed u → unclosed (b ++ o :: u).

(** * Properties *)

(** ** Streams only shrink *)

Lemma skip_ws_length fp c fp' :
  skip_ws fp = (c, fp') → (length fp' ≤ length fp)%nat.
Proof.
  revert c fp'. induction fp as [|a fp IH]; intros c fp' H; simpl in H.
  - by inversion H.
  - destruct (isspace a).
    + apply IH in H. simpl. lia.
    + inversion H; subst. simpl. lia.
Qed.

Lemma skip_ws_length_some fp c fp' :
  skip_ws fp = (Some c, fp') → (length fp' < length fp)%nat.
Proof.
  revert c fp'. induction fp as [|a fp IH]; intros c fp' H; simpl in H.
  - by inversion H.
  - destruct (isspace a).
    + apply IH in H. simpl. lia.
    + inversion H; subst. simpl. lia.
Qed.

Lemma read_json_string_length fp buf fp' :
  read_json_string fp = Some (buf, fp') → (length fp' < length fp)%nat.
Proof.
  remember (length fp) as n eqn:Hn.
  revert fp buf fp' Hn.
  induction (lt_wf n) as [n _ IH]; intros fp buf fp' -> H.
  destruct fp as [|c fp1]; [done|]. simpl in H.
  destruct (is_char c dquote).
  { inversion H; subst. simpl. lia. }
  destruct (is_char c backslash).
  - destruct fp1 as [|esc fp2]; [done|].
    destruct (is_char esc "u").
    + destruct fp2 as [|h1 [|h2 [|h3 [|h4 fp3]]]]; try done.
      destruct (isxdigit h1 && isxdigit h2 && isxdigit h3 && isxdigit h4); [|done].
      destruct (read_json_string fp3) as [[b r]|] eqn:E; [|done].
      inversion H; subst.
      eapply (IH (length fp3)) in E; [|simpl; lia|done]. simpl. lia.
    + destruct (read_json_string fp2) as [[b r]|] eqn:E; [|done].
      inversion H; subst.
      eapply (IH (length fp2)) in E; [|simpl; lia|done]. simpl. lia.
  - destruct (read_json_string fp1) as [[b r]|] eqn:E; [|done].
    inversion H; subst.
    eapply (IH (length fp1)) in E; [|simpl; lia|done]. simpl. lia.
Qed.

Lemma container_loop_length fp : ∀ depth in_string esc fp',
  container_loop depth in_string esc fp = Skipped fp' →
  (length fp' ≤ length fp)%nat.
Proof.
  induction fp as [|c fp IH]; intros depth in_string esc fp' H; simpl in H.
  - destruct (depth <=? 0); by inversion H.
  - destruct (depth <=? 0); [by inversion H|].
    simpl.
    repeat match type of H with
           | (if ?b then _ else _) = _ => destruct b
           end;
      try discriminate; apply IH in H; lia.
Qed.

Lemma scalar_loop_length fp : ∀ c,
  (length (scalar_loop c fp) ≤ length fp + (if c is Some _ then 1 else 0))%nat.
Proof.
  induction fp as [|a fp IH]; intros [c|]; simpl;
    unfold ungetc; repeat case_match; simpl; try lia.
  specialize (IH (Some a)). simpl in IH. lia.
Qed.

Lemma consume_json_value_length fp c fp' :
  consume_json_value fp (Some c) = Skipped fp' →
  (length fp' ≤ S (length fp))%nat.
Proof.
  unfold consume_json_value. intros H.
  repeat case_match; try discriminate; inversion H; subst.
  - match goal with E : read_json_string _ = _ |- _ =>
      apply read_json_string_length in E end. lia.
  - match goal with E : container_loop _ _ _ _ = _ |- _ =>
      apply container_loop_length in E end. lia.
  - pose proof (scalar_loop_length fp (Some c)). simpl in *. lia.
Qed.

(** ** The loop of [process_file] ends *)

(** A turn of the loop returns with the state it was given, or goes on
    with a shorter stream and that state, or that state after one value
    is emitted. [R] relates the turn with the continuation [f] to the
    turn with the continuation [g]. *)
Lemma process_body_rel (R : option outcome → option outcome → Prop)
    (f g : stream → scan_state → option outcome) fp st :
  (∀ r, R (Some (Returns r st)) (Some (Returns r st))) →
  R (Some Undefined) (Some Undefined) →
  (∀ fp' st', (length fp' < length fp)%nat →
              st' = st ∨ (∃ v, st' = emit st v) →
              R (f fp' st') (g fp' st')) →
  R (process_body f fp st) (process_body g fp st).
Proof.
  intros Hret Hundef Hcont. unfold process_body.
  destruct fp as [|c fp0]; simpl; [done|].
  destruct (negb (is_char c dquote)); [apply Hcont; simpl; auto with lia|].
  destruct (read_json_string fp0) as [[k fp1]|] eqn:E1; [|done].
  apply read_json_string_length in E1.
  destruct (skip_ws fp1) as [c1 fp2] eqn:E2.
  apply skip_ws_length in E2.
  destruct (negb (bool_decide (c1 = Some ":"%char)));
    [apply Hcont; simpl; auto with lia|].
  destruct (skip_ws fp2) as [[cv|] fp3] eqn:E3; [|done].
  apply skip_ws_length_some in E3.
  destruct (strcmp_eq k KEY_MODEL && is_char cv dquote).
  - destruct (read_json_string fp3) as [[v fp4]|] eqn:E4; [|done].
    apply read_json_string_length in E4.
    apply Hcont; [simpl; lia|eauto].
  - destruct (consume_json_value fp3 (Some cv)) as [fp4| |] eqn:E4; [|done..].
    apply consume_json_value_length in E4.
    apply Hcont; [simpl; lia|auto].
Qed.

Lemma process_body_ext (f g : stream → scan_state → option outcome) fp st :
  (∀ fp' st', (length fp' < length fp)%nat → f fp' st' = g fp' st') →
  process_body f fp st = process_body g fp st.
Proof. intros Hfg. apply (process_body_rel eq); auto. Qed.

Lemma process_body_is_Some (f : stream → scan_state → option outcome) fp st :
  (∀ fp' st', (length fp' < length fp)%nat → is_Some (f fp' st')) →
  is_Some (process_body f fp st).
Proof.
  intros Hf. apply (process_body_rel (λ o _, is_Some o) f f); auto.
Qed.

Lemma process_loop_fuel n : ∀ m fp st,
  (length fp < n)%nat → (length fp < m)%nat →
  process_loop n fp st = process_loop m fp st.
Proof.
  induction n as [|n IH]; intros m fp st Hn Hm; [lia|].
  destruct m as [|m]; [lia|]. simpl.
  apply process_body_ext. intros fp' st' Hlt. apply IH; lia.
Qed.

Lemma process_loop_is_Some n : ∀ fp st,
  (length fp < n)%nat → is_Some (process_loop n fp st).
Proof.
  induction n as [|n IH]; intros fp st Hn; [lia|]. simpl.
  apply process_body_is_Some. intros fp' st' Hlt. apply IH; lia.
Qed.

(** [process_file] returns on every stream. *)
Lemma process_file_total fp st : is_Some (process_file fp st).
Proof. apply process_loop_is_Some. lia. Qed.

(** [process_file] is the loop whose turns are [process_body]. *)
Lemma process_file_unfold fp st :
  process_file fp st = process_body process_file fp st.
Proof.
  unfold process_file at 1. simpl.
  apply process_body_ext. intros fp' st' Hlt.
  apply process_loop_fuel; lia.
Qed.

(** ** String literals *)

Lemma read_json_string_quote fp :
  read_json_string (dquote :: fp) = Some ([], fp).
Proof. reflexivity. Qed.

Lemma read_json_string_plain c fp :
  is_char c dquote = false → is_char c backslash = false →
  read_json_string (c :: fp) = prepend c (read_json_string fp).
Proof. intros H1 H2. simpl. by rewrite H1, H2. Qed.

Lemma read_json_string_u fp :
  read_json_string (backslash :: "u"%char :: fp) =
  if four_hex fp then prepend "?" (read_json_string (drop 4 fp)) else None.
Proof.
  simpl. destruct fp as [|h1 [|h2 [|h3 [|h4 fp]]]]; reflexivity.
Qed.

Lemma read_json_string_escape x fp :
  is_char x "u" = false →
  read_json_string (backslash :: x :: fp) =
  prepend (unescape x) (read_json_string fp).
Proof. intros H. simpl. by rewrite H. Qed.

Lemma is_char_eq c d : is_char c d = true ↔ c = d.
Proof. apply Ascii.eqb_eq. Qed.

Lemma is_char_neq c d : is_char c d = false ↔ c ≠ d.
Proof. apply Ascii.eqb_neq. Qed.

Lemma unescape_other x :
  x ≠ dquote → x ≠ backslash → x ≠ "/"%char → x ≠ "b"%char →
  x ≠ "f"%char → x ≠ "n"%char → x ≠ "r"%char → x ≠ "t"%char →
  unescape x = x.
Proof.
  intros. unfold unescape.
  repeat (case_match; [match goal with H : is_char _ _ = true |- _ =>
                         apply is_char_eq in H; congruence end|]).
  done.
Qed.

(** A literal read from a stream is read the same way whatever follows
    its closing quote. *)
Lemma read_json_string_app lit : ∀ buf r rest,
  read_json_string lit = Some (buf, r) →
  read_json_string (lit ++ rest) = Some (buf, r ++ rest).
Proof.
  remember (length lit) as n eqn:Hn. revert lit Hn.
  induction (lt_wf n) as [n _ IH]; intros lit -> buf r rest H.
  destruct lit as [|c fp1]; [done|]. simpl in H |- *.
  destruct (is_char c dquote); [by inversion H|].
  destruct (is_char c backslash).
  - destruct fp1 as [|esc fp2]; [done|]. simpl.
    destruct (is_char esc "u").
    + destruct fp2 as [|h1 [|h2 [|h3 [|h4 fp3]]]]; try done. simpl.
      destruct (isxdigit h1 && isxdigit h2 && isxdigit h3 && isxdigit h4); [|done].
      destruct (read_json_string fp3) as [[b r']|] eqn:E; [|done].
      inversion H; subst.
      by erewrite (IH (length fp3)); [| simpl; lia | done | done].
    + destruct (read_json_string fp2) as [[b r']|] eqn:E; [|done].
      inversion H; subst.
      by erewrite (IH (length fp2)); [| simpl; lia | done | done].
  - destruct (read_json_string fp1) as [[b r']|] eqn:E; [|done].
    inversion H; subst.
    by erewrite (IH (length fp1)); [| simpl; lia | done | done].
Qed.

(** ** White space *)

Lemma skip_ws_spaces ws c rest :
  all_space ws → isspace c = false →
  skip_ws (ws ++ c :: rest) = (Some c, rest).
Proof.
  intros Hws Hc. induction Hws as [|a ws Ha _ IH]; simpl.
  - by rewrite Hc.
  - by rewrite Ha.
Qed.

Lemma skip_ws_eof ws : all_space ws → skip_ws ws = (None, []).
Proof.
  intros Hws. induction Hws as [|a ws Ha _ IH]; simpl; [done|].
  by rewrite Ha.
Qed.

(** ** A candidate key and its colon *)

Lemma process_file_key lit key ws1 ws2 rest st :
  read_json_string lit = Some (key, []) →
  all_space ws1 → all_space ws2 → starts_value rest →
  process_file (dquote :: lit ++ ws1 ++ ":"%char :: ws2 ++ rest) st =
  after_colon key rest st.
Proof.
  intros Hlit Hws1 Hws2 Hrest.
  rewrite process_file_unfold. unfold process_body. simpl.
  erewrite read_json_string_app by done. simpl.
  rewrite skip_ws_spaces by done. simpl.
  destruct rest as [|cv fp]; simpl.
  - rewrite app_nil_r. by rewrite skip_ws_eof.
  - by rewrite skip_ws_spaces.
Qed.

Lemma process_file_other c fp st :
  is_char c dquote = false → process_file (c :: fp) st = process_file fp st.
Proof.
  intros H. rewrite process_file_unfold. unfold process_body. simpl.
  by rewrite H.
Qed.

Lemma process_file_key_fails fp st :
  read_json_string fp = None →
  process_file (dquote :: fp) st = Some (Returns 0 st).
Proof.
  intros H. rewrite process_file_unfold. unfold process_body. simpl.
  by rewrite H.
Qed.

Lemma prepend_all_nil r : prepend_all [] r = r.
Proof. by destruct r as [[]|]. Qed.

Lemma prepend_prepend_all c b r :
  prepend c (prepend_all b r) = prepend_all (c :: b) r.
Proof. by destruct r as [[]|]. Qed.

Lemma prepend_all_prepend b c r :
  prepend_all b (prepend c r) = prepend_all (b ++ [c]) r.
Proof.
  destruct r as [[]|]; [|done]. simpl. unfold prod_map. simpl.
  by rewrite <- app_assoc.
Qed.

Lemma prepend_inv c r b fp :
  prepend c r = Some (b, fp) → ∃ b', r = Some (b', fp) ∧ b = c :: b'.
Proof.
  destruct r as [[b' fp']|]; [|done]. simpl. unfold prod_map. simpl.
  intros [= <- <-]. eauto.
Qed.

(** The bytes [pre] of a literal up to a point between two of its
    units: followed by the closing quote they decode to [buf]; followed
    by [rest], [buf] comes in front of what [rest] decodes to. *)
Lemma read_json_string_prefix pre : ∀ buf rest,
  read_json_string (pre ++ [dquote]) = Some (buf, []) →
  read_json_string (pre ++ rest) = prepend_all buf (read_json_string rest).
Proof.
  remember (length pre) as n eqn:Hn. revert pre Hn.
  induction (lt_wf n) as [n _ IH]; intros pre -> buf rest H.
  destruct pre as [|c pre1].
  { simpl in H. inversion H; subst. by rewrite prepend_all_nil. }
  rewrite <- !app_comm_cons in *.
  cbn [read_json_string] in H |- *.
  destruct (is_char c dquote).
  { inversion H as [[Hb He]]. by destruct pre1. }
  destruct (is_char c backslash).
  - destruct pre1 as [|esc pre2]; [done|].
    rewrite <- !app_comm_cons in *.
    destruct (is_char esc "u").
    + destruct pre2 as [|h1 [|h2 [|h3 [|h4 pre3]]]]; try done.
      { simpl in H. by rewrite !andb_false_r in H. }
      rewrite <- !app_comm_cons in *.
      destruct (isxdigit h1 && isxdigit h2 && isxdigit h3 && isxdigit h4); [|done].
      apply prepend_inv in H as (b' & H & ->).
      erewrite (IH (length pre3)); [| simpl; lia | done | done].
      apply prepend_prepend_all.
    + apply prepend_inv in H as (b' & H & ->).
      erewrite (IH (length pre2)); [| simpl; lia | done | done].
      apply prepend_prepend_all.
  - apply prepend_inv in H as (b' & H & ->).
    erewrite (IH (length pre1)); [| simpl; lia | done | done].
    apply prepend_prepend_all.
Qed.

Lemma process_file_value_fails lit key ws1 ws2 fp st :
  read_json_string lit = Some (key, []) →
  all_space ws1 → all_space ws2 →
  read_json_string fp = None →
  process_file (dquote :: lit ++ ws1 ++ ":"%char :: ws2 ++ dquote :: fp) st =
  Some (Returns 0 st).
Proof.
  intros Hlit Hws1 Hws2 Hfp.
  rewrite (process_file_key lit key) by done.
  unfold after_colon, consume_json_value. simpl. rewrite Hfp.
  by destruct (strcmp_eq key KEY_MODEL).
Qed.

(** C7. In a string literal, at any place between two units of it, a
    backslash-u followed by four hexadecimal digits is decoded to the one
    byte '?', a backslash-u followed by anything else makes the decoding
    fail, and any other escaped byte [x] is decoded to [unescape x]: the
    quote, the backslash and the slash themselves, the control bytes 8, 12,
    10, 13, 9 for b, f, n, r, t, and [x] itself otherwise. A decoding
    that fails, of a candidate key or of a value, makes [process_file]
    return 0. *)
Theorem read_json_string_escapes pre buf :
  read_json_string (pre ++ [dquote]) = Some (buf, []) →
  (∀ fp, read_json_string (pre ++ backslash :: "u"%char :: fp) =
         if four_hex fp
         then prepend_all (buf ++ ["?"%char]) (read_json_string (drop 4 fp))
         else None)
  ∧ (∀ x fp, x ≠ "u"%char →
       read_json_string (pre ++ backslash :: x :: fp) =
       prepend_all (buf ++ [unescape x]) (read_json_string fp))
  ∧ (unescape dquote = dquote ∧ unescape backslash = backslash
     ∧ unescape "/" = "/"%char ∧ unescape "b" = "008"%char
     ∧ unescape "f" = "012"%char ∧ unescape "n" = "010"%char
     ∧ unescape "r" = "013"%char ∧ unescape "t" = "009"%char)
  ∧ (∀ x, x ≠ dquote → x ≠ backslash → x ≠ "/"%char → x ≠ "b"%char →
          x ≠ "f"%char → x ≠ "n"%char → x ≠ "r"%char → x ≠ "t"%char →
          unescape x = x)
  ∧ (∀ fp st, four_hex fp = false →
       process_file (dquote :: pre ++ backslash :: "u"%char :: fp) st =
       Some (Returns 0 st))
  ∧ (∀ lit key ws1 ws2 fp st,
       read_json_string lit = Some (key, []) →
       all_space ws1 → all_space ws2 → four_hex fp = false →
       process_file (dquote :: lit ++ ws1 ++ ":"%char :: ws2 ++
                     dquote :: pre ++ backslash :: "u"%char :: fp) st =
       Some (Returns 0 st)).
Proof.
  intros Hpre.
  assert (Hu : ∀ fp, read_json_string (pre ++ backslash :: "u"%char :: fp) =
         if four_hex fp
         then prepend_all (buf ++ ["?"%char]) (read_json_string (drop 4 fp))
         else None).
  { intros fp. rewrite (read_json_string_prefix pre buf) by done.
    rewrite read_json_string_u. destruct (four_hex fp); [|done].
    apply prepend_all_prepend. }
  split; [done|]. split.
  { intros x fp Hx. rewrite (read_json_string_prefix pre buf) by done.
    rewrite read_json_string_escape by by apply is_char_neq.
    apply prepend_all_prepend. }
  split; [by repeat split|]. split; [apply unescape_other|]. split.
  - intros fp st Hfp. apply process_file_key_fails. by rewrite Hu, Hfp.
  - intros lit key ws1 ws2 fp st Hlit Hws1 Hws2 Hfp.
    apply (process_file_value_fails lit key); try done. by rewrite Hu, Hfp.
Qed.

Lemma read_json_string_escapes_witness :
  read_json_string (str "a" ++ backslash :: "u"%char :: str "00e9\tb" ++ [dquote]) =
  Some (["a"; "?"; "009"; "b"]%char, []).
Proof.
  destruct (read_json_string_escapes (str "a") (str "a") eq_refl) as [Hu _].
  rewrite Hu. reflexivity.
Defined.

(** ** Skipping a value *)

Lemma scalar_loop_spec fp : ∀ c,
  ∃ tok rest, c :: fp = tok ++ rest ∧ Forall token_byte tok ∧
    match rest with
    | [] => scalar_loop (Some c) fp = []
    | d :: r =>
        (is_delim d = true ∧ scalar_loop (Some c) fp = d :: r)
        ∨ (is_delim d = false ∧ isspace d = true
           ∧ scalar_loop (Some c) fp = r)
    end.
Proof.
  induction fp as [|a fp IH]; intros c.
  - destruct (is_delim c) eqn:Hd; [|destruct (isspace c) eqn:Hs].
    + exists [], [c]. simpl. rewrite Hd. by eauto.
    + exists [], [c]. simpl. rewrite Hd, Hs. by eauto 6.
    + exists [c], []. simpl. rewrite Hd, Hs.
      split; [done|]. split; [|done]. by repeat constructor.
  - destruct (is_delim c) eqn:Hd; [|destruct (isspace c) eqn:Hs].
    + exists [], (c :: a :: fp). simpl. rewrite Hd. by eauto.
    + exists [], (c :: a :: fp). simpl. rewrite Hd, Hs. by eauto 6.
    + destruct (IH a) as (tok & rest & Heq & Htok & Hres).
      exists (c :: tok), rest. simpl. rewrite Hd, Hs, Heq.
      split; [done|]. split; [|done]. by constructor.
Qed.

(** C9. A value whose first byte [c] is not a quote, a brace or a
    bracket is skipped with success whatever follows, the end of the
    stream too: the bytes [tok] up to the first comma, closing brace,
    closing bracket or white space are read; a white space that ends them
    is read too, and a comma, brace or bracket that ends them is the next
    byte of the stream when [consume_json_value] returns. *)
Theorem consume_scalar c fp :
  c ≠ dquote → c ≠ "{"%char → c ≠ "["%char →
  ∃ tok rest, c :: fp = tok ++ rest ∧ Forall token_byte tok ∧
    match rest with
    | [] => consume_json_value fp (Some c) = Skipped []
    | d :: r =>
        (is_delim d = true ∧ consume_json_value fp (Some c) = Skipped (d :: r))
        ∨ (is_delim d = false ∧ isspace d = true
           ∧ consume_json_value fp (Some c) = Skipped r)
    end.
Proof.
  intros Hq Hb Hk.
  assert (consume_json_value fp (Some c) = Skipped (scalar_loop (Some c) fp))
    as ->.
  { unfold consume_json_value.
    rewrite !bool_decide_eq_false_2 by congruence. done. }
  destruct (scalar_loop_spec fp c) as (tok & rest & Heq & Htok & Hres).
  exists tok, rest. split; [done|]. split; [done|].
  destruct rest as [|d r]; [by rewrite Hres|].
  destruct Hres as [[? ->]|(? & ? & ->)]; eauto.
Qed.

Lemma consume_scalar_witness :
  ∃ tok rest, "1"%char :: str "23,'x':1" = tok ++ rest ∧ Forall token_byte tok ∧
    match rest with
    | [] => consume_json_value (str "23,'x':1") (Some "1"%char) = Skipped []
    | d :: r =>
        (is_delim d = true
         ∧ consume_json_value (str "23,'x':1") (Some "1"%char) = Skipped (d :: r))
        ∨ (is_delim d = false ∧ isspace d = true
           ∧ consume_json_value (str "23,'x':1") (Some "1"%char) = Skipped r)
    end.
Proof. apply (consume_scalar "1" (str "23,'x':1")); discriminate. Defined.

(** C8. When the stream ends in the white space after the colon of a
    candidate key, [process_file] returns 1 and leaves the table, the
    counter and the values emitted as they were when the key was
    reached. *)
Theorem eof_after_colon lit key ws1 ws2 st :
  read_json_string lit = Some (key, []) →
  all_space ws1 → all_space ws2 →
  process_file (dquote :: lit ++ ws1 ++ ":"%char :: ws2) st =
  Some (Returns 1 st).
Proof.
  intros Hlit Hws1 Hws2.
  pose proof (process_file_key lit key ws1 ws2 [] st Hlit Hws1 Hws2 I) as H.
  by rewrite app_nil_r in H.
Qed.

Lemma eof_after_colon_witness :
  process_file (dquote :: (str "model" ++ [dquote]) ++ str " " ++ ":"%char :: str "  ")
               initial_state =
  Some (Returns 1 initial_state).
Proof.
  apply (eof_after_colon _ (str "model")).
  - reflexivity.
  - by repeat constructor.
  - by repeat constructor.
Defined.

(** ** Containers *)

Lemma container_loop_app body : ∀ depth in_string esc r rest,
  container_loop depth in_string esc body = Skipped r →
  container_loop depth in_string esc (body ++ rest) = Skipped (r ++ rest).
Proof.
  induction body as [|c body IH]; intros depth in_string esc r rest H.
  - simpl in H. destruct (depth <=? 0) eqn:Hd; [|done].
    inversion H; subst. simpl. destruct rest; simpl; by rewrite Hd.
  - simpl in H |- *. destruct (depth <=? 0); [by inversion H|].
    repeat match type of H with
           | (if ?b then _ else _) = _ => destruct b
           end; try discriminate; by apply IH.
Qed.

Lemma is_open_not_space c : is_open c = true → isspace c = false.
Proof.
  unfold is_open. intros [H|H]%orb_true_iff; apply is_char_eq in H; by subst.
Qed.

Lemma is_open_not_quote c : is_open c = true → is_char c dquote = false.
Proof.
  unfold is_open. intros [H|H]%orb_true_iff; apply is_char_eq in H; by subst.
Qed.

Lemma consume_json_value_open c fp :
  is_open c = true →
  consume_json_value fp (Some c) = container_loop 1 false false fp.
Proof.
  unfold is_open. intros [H|H]%orb_true_iff; apply is_char_eq in H; by subst.
Qed.

Lemma process_file_container lit key ws1 ws2 c fp st :
  read_json_string lit = Some (key, []) →
  all_space ws1 → all_space ws2 → is_open c = true →
  process_file (dquote :: lit ++ ws1 ++ ":"%char :: ws2 ++ c :: fp) st =
  match container_loop 1 false false fp with
  | Skipped fp' => process_file fp' st
  | SkipFailed => Some (Returns 0 st)
  | SkipUndefined => Some Undefined
  end.
Proof.
  intros Hlit Hws1 Hws2 Hc.
  rewrite (process_file_key lit key); try done; [|by apply is_open_not_space].
  unfold after_colon.
  rewrite (is_open_not_quote c), andb_false_r by done.
  rewrite consume_json_value_open by done.
  by destruct (container_loop 1 false false fp).
Qed.

(** The claim C1 as it is written fails on its own example: RDV2 is not
    counted. *)
Lemma nested_model_not_counted :
  ¬ ∃ st, process_file test_input_2 initial_state = Some (Returns 1 st)
          ∧ get_count (table st) (str "XYZ") = 1
          ∧ get_count (table st) (str "RDV2") = 1.
Proof.
  intros (st & Hrun & _ & Hrdv2).
  vm_compute in Hrun. injection Hrun as <-.
  vm_compute in Hrdv2. discriminate.
Qed.

(** ** Literals that are not closed *)

Lemma isxdigit_plain h :
  isxdigit h = true → is_char h dquote = false ∧ is_char h backslash = false.
Proof.
  destruct h as [[] [] [] [] [] [] [] []]; vm_compute; intros H; try done.
Qed.

Lemma read_json_string_unterminated s :
  closes s = false → read_json_string s = None.
Proof.
  remember (length s) as n eqn:Hn. revert s Hn.
  induction (lt_wf n) as [n _ IH]; intros s -> H.
  destruct s as [|c fp1]; [done|]. simpl in H |- *.
  destruct (is_char c dquote); [done|].
  destruct (is_char c backslash).
  - destruct fp1 as [|esc fp2]; [done|].
    destruct (is_char esc "u").
    + destruct fp2 as [|h1 [|h2 [|h3 [|h4 fp3]]]]; try done.
      destruct (isxdigit h1) eqn:H1; [|done].
      destruct (isxdigit h2) eqn:H2; [|done].
      destruct (isxdigit h3) eqn:H3; [|done].
      destruct (isxdigit h4) eqn:H4; [|done].
      simpl in H |- *.
      apply isxdigit_plain in H1 as [Ha1 Hb1], H2 as [Ha2 Hb2],
        H3 as [Ha3 Hb3], H4 as [Ha4 Hb4].
      rewrite Ha1, Hb1, Ha2, Hb2, Ha3, Hb3, Ha4, Hb4 in H.
      by rewrite (IH (length fp3)); [| simpl; lia | done | done].
    + by rewrite (IH (length fp2)); [| simpl; lia | done | done].
  - by rewrite (IH (length fp1)); [| simpl; lia | done | done].
Qed.

Lemma container_loop_unterminated s : ∀ depth,
  0 < depth → closes s = false →
  container_loop depth true false s = SkipFailed.
Proof.
  remember (length s) as n eqn:Hn. revert s Hn.
  induction (lt_wf n) as [n _ IH]; intros s -> depth Hd H.
  assert ((depth <=? 0) = false) as Hd' by lia.
  destruct s as [|c s1]; simpl in H |- *; rewrite Hd'; [done|].
  destruct (is_char c backslash) eqn:Hb.
  - apply is_char_eq in Hb as ->. simpl in H.
    destruct s1 as [|x s2]; simpl; rewrite Hd'; [done|].
    by apply (IH (length s2)); [simpl; lia|..].
  - destruct (is_char c dquote); [done|].
    by apply (IH (length s1)); [simpl; lia|..].
Qed.

(** ** Balanced containers *)

Lemma container_loop_in_string depth c fp :
  0 < depth →
  container_loop depth true false (c :: fp) =
  if is_char c backslash then container_loop depth true true fp
  else if is_char c dquote then container_loop depth false false fp
  else container_loop depth true false fp.
Proof. intros Hd. simpl. by assert ((depth <=? 0) = false) as -> by lia. Qed.

Lemma container_loop_escaped depth c fp :
  0 < depth →
  container_loop depth true true (c :: fp) = container_loop depth true false fp.
Proof. intros Hd. simpl. by assert ((depth <=? 0) = false) as -> by lia. Qed.

Lemma container_loop_outside depth c fp :
  0 < depth →
  container_loop depth false false (c :: fp) =
  if is_char c dquote then container_loop depth true false fp
  else if is_open c then
    if depth =? INT_MAX then SkipUndefined
    else container_loop (depth + 1) false false fp
  else if is_close c then container_loop (depth - 1) false false fp
  else container_loop depth false false fp.
Proof. intros Hd. simpl. by assert ((depth <=? 0) = false) as -> by lia. Qed.

Lemma container_loop_done in_string esc fp :
  container_loop 0 in_string esc fp = Skipped fp.
Proof. by destruct fp. Qed.

Lemma is_close_not_quote c : is_close c = true → is_char c dquote = false.
Proof.
  unfold is_close. intros [H|H]%orb_true_iff; apply is_char_eq in H; by subst.
Qed.

Lemma is_close_not_open c : is_close c = true → is_open c = false.
Proof.
  unfold is_close. intros [H|H]%orb_true_iff; apply is_char_eq in H; by subst.
Qed.

(** The container loop leaves a string at the quote that follows a
    [string_body]. *)
Lemma container_loop_string_body s :
  string_body s → ∀ depth rest,
  0 < depth →
  container_loop depth true false (s ++ dquote :: rest) =
  container_loop depth false false rest.
Proof.
  induction 1 as [|c s Hq Hb _ IH|x s _ IH]; intros depth rest Hd.
  - simpl app. by rewrite container_loop_in_string.
  - simpl app. rewrite container_loop_in_string by done.
    apply is_char_neq in Hq, Hb. rewrite Hq, Hb. by apply IH.
  - simpl app. rewrite container_loop_in_string by done.
    assert (is_char backslash backslash = true) as -> by done.
    rewrite container_loop_escaped by done. by apply IH.
Qed.

(** The container loop is at the depth it had when it has read balanced
    text; the bound keeps the [int] depth below [INT_MAX]. *)
Lemma container_loop_balanced b :
  balanced b → ∀ depth rest,
  0 < depth → depth + Z.of_nat (length b) ≤ INT_MAX →
  container_loop depth false false (b ++ rest) =
  container_loop depth false false rest.
Proof.
  induction 1 as [|c b (Hq & Ho & Hc) _ IH|s b Hs _ IH|o b c b' Ho _ IHb Hc _ IHb'];
    intros depth rest Hd Hlen.
  - done.
  - simpl app. rewrite container_loop_outside by done.
    apply is_char_neq in Hq. rewrite Hq, Ho, Hc.
    apply IH; [done|]. simpl length in Hlen. lia.
  - simpl app. rewrite container_loop_outside by done.
    assert (is_char dquote dquote = true) as -> by done.
    rewrite <- app_assoc. simpl app.
    rewrite container_loop_string_body by done.
    apply IH; [done|].
    simpl length in Hlen. rewrite length_app in Hlen. simpl length in Hlen. lia.
  - simpl length in Hlen. rewrite length_app in Hlen. simpl length in Hlen.
    simpl app. rewrite container_loop_outside by done.
    rewrite (is_open_not_quote o), Ho by done.
    assert ((depth =? INT_MAX) = false) as -> by lia.
    rewrite <- app_assoc. simpl app.
    rewrite IHb by lia.
    rewrite container_loop_outside by lia.
    rewrite (is_close_not_quote c), (is_close_not_open c), Hc by done.
    replace (depth + 1 - 1) with depth by lia.
    apply IHb'; [done|lia].
Qed.

(** A container whose content is balanced is skipped up to the byte that
    closes it. *)
Lemma container_loop_closed body c rest :
  balanced body → is_close c = true →
  Z.of_nat (length body) < INT_MAX →
  container_loop 1 false false (body ++ c :: rest) = Skipped rest.
Proof.
  intros Hb Hc Hlen.
  rewrite container_loop_balanced by (done || lia).
  rewrite container_loop_outside by done.
  rewrite (is_close_not_quote c), (is_close_not_open c), Hc by done.
  apply container_loop_done.
Qed.

(** A container that the end of the stream cuts is not skipped. *)
Lemma container_loop_unclosed u :
  unclosed u → ∀ depth,
  0 < depth → depth + Z.of_nat (length u) ≤ INT_MAX →
  container_loop depth false false u = SkipFailed.
Proof.
  induction 1 as [b Hb|b s Hb Hs|b o u Hb Ho _ IH]; intros depth Hd Hlen.
  - rewrite <- (app_nil_r b), container_loop_balanced by done.
    simpl. by assert ((depth <=? 0) = false) as -> by lia.
  - rewrite length_app in Hlen. simpl length in Hlen.
    rewrite container_loop_balanced by (done || lia).
    rewrite container_loop_outside by done.
    assert (is_char dquote dquote = true) as -> by done.
    by apply container_loop_unterminated.
  - rewrite length_app in Hlen. simpl length in Hlen.
    rewrite container_loop_balanced by (done || lia).
    rewrite container_loop_outside by done.
    rewrite (is_open_not_quote o), Ho by done.
    assert ((depth =? INT_MAX) = false) as -> by lia.
    apply IH; lia.
Qed.

Lemma scalar_loop_token tok : ∀ t0 d r,
  Forall token_byte (t0 :: tok) →
  scalar_loop (Some t0) (tok ++ d :: r) =
  if is_delim d then d :: r
  else if isspace d then r
  else scalar_loop (Some d) r.
Proof.
  induction tok as [|t tok IH]; intros t0 d r Htok;
    apply Forall_cons_1 in Htok as [[Hd Hs] Htok]; simpl; rewrite Hd, Hs.
  - destruct r; simpl; by destruct (is_delim d), (isspace d).
  - by apply IH.
Qed.

Lemma scalar_loop_eof tok : ∀ t0,
  Forall token_byte (t0 :: tok) → scalar_loop (Some t0) tok = [].
Proof.
  induction tok as [|t tok IH]; intros t0 Htok;
    apply Forall_cons_1 in Htok as [[Hd Hs] Htok]; simpl; rewrite Hd, Hs.
  - done.
  - by apply IH.
Qed.

Lemma consume_json_value_token t0 fp :
  t0 ≠ dquote → is_open t0 = false →
  consume_json_value fp (Some t0) = Skipped (scalar_loop (Some t0) fp).
Proof.
  intros Hq Ho. unfold consume_json_value, is_open in *.
  apply orb_false_iff in Ho as [Ho1%is_char_neq Ho2%is_char_neq].
  rewrite !bool_decide_eq_false_2 by congruence. done.
Qed.

Lemma process_file_token lit key ws1 ws2 t0 fp st :
  read_json_string lit = Some (key, []) →
  all_space ws1 → all_space ws2 →
  token_byte t0 → t0 ≠ dquote → is_open t0 = false →
  process_file (dquote :: lit ++ ws1 ++ ":"%char :: ws2 ++ t0 :: fp) st =
  process_file (scalar_loop (Some t0) fp) st.
Proof.
  intros Hlit Hws1 Hws2 [_ Hs] Hq Ho.
  rewrite (process_file_key lit key) by done.
  unfold after_colon. apply is_char_neq in Hq as Hq'.
  rewrite Hq', andb_false_r.
  by rewrite consume_json_value_token.
Qed.

(** Closed examples of balanced text and of a container that is cut. *)
Ltac string_body_tac :=
  repeat first [ apply sb_nil | apply sb_byte; [done|done|] | apply sb_escape ].
Ltac plain_tac := apply bal_byte; [by split_and!|].

Lemma balanced_nested_example : balanced (json "'b':{},'model':'X'").
Proof.
  apply (bal_string (str "b") (json ":{},'model':'X'")); [string_body_tac|].
  plain_tac.
  apply (bal_nest "{" [] "}" (json ",'model':'X'")); [done|constructor|done|].
  plain_tac.
  apply (bal_string (str "model") (json ":'X'")); [string_body_tac|].
  plain_tac.
  apply (bal_string (str "X") []); [string_body_tac|].
  constructor.
Qed.

Lemma balanced_model_example : balanced (json "'model':'X'").
Proof.
  apply (bal_string (str "model") (json ":'X'")); [string_body_tac|].
  plain_tac.
  apply (bal_string (str "X") []); [string_body_tac|].
  constructor.
Qed.

Lemma unclosed_example : unclosed (json "1,{'b':2},[3").
Proof.
  apply (unc_open (json "1,{'b':2},") "[" (str "3")); [|done|].
  - do 2 plain_tac.
    apply (bal_nest "{" (json "'b':2") "}" (str ",")); [done| |done|].
    + apply (bal_string (str "b") (str ":2")); [string_body_tac|].
      do 2 plain_tac. constructor.
    + plain_tac. constructor.
  - apply unc_end. plain_tac. constructor.
Qed.

(** C1, amended. When the value of a key, the target key or another
    one, begins with a brace or a bracket [o] and the content [body] of the
    container is balanced (each brace or bracket outside a string closed,
    each string closed) and shorter than [INT_MAX] bytes,
    [consume_json_value] reads the container up to the byte [c] that closes
    it and the scan goes on after it from the state it had at the key: no
    pair inside the container is recognised or counted, at any depth. On
    the second input of the tests the run emits XYZ only: XYZ has count 1,
    RDV2 has count 0 and the table has one entry. On an object that holds
    an object two levels down and a target pair after it, the scan emits
    the target pair that follows the outer object only. *)
Theorem nested_container_skipped :
  (∀ lit key ws1 ws2 o body c rest st,
     read_json_string lit = Some (key, []) →
     all_space ws1 → all_space ws2 → is_open o = true →
     balanced body → is_close c = true →
     Z.of_nat (length body) < INT_MAX →
     process_file (dquote :: lit ++ ws1 ++ ":"%char :: ws2 ++
                   o :: body ++ c :: rest) st =
     process_file rest st)
  ∧ (∃ st, process_file test_input_2 initial_state = Some (Returns 1 st)
           ∧ emitted st = [str "XYZ"]
           ∧ models_seen st = 1
           ∧ size (table st) = 1
           ∧ get_count (table st) (str "XYZ") = 1
           ∧ get_count (table st) (str "RDV2") = 0)
  ∧ (∃ st, process_file (json "{'a':{'b':{},'model':'X'},'model':'Y'}")
             initial_state = Some (Returns 1 st)
           ∧ emitted st = [str "Y"]
           ∧ models_seen st = 1
           ∧ get_count (table st) (str "X") = 0
           ∧ get_count (table st) (str "Y") = 1).
Proof.
  split; [|split].
  - intros lit key ws1 ws2 o body c rest st Hlit Hws1 Hws2 Ho Hbody Hc Hlen.
    rewrite (process_file_container lit key) by done.
    by rewrite container_loop_closed.
  - eexists. split; [vm_compute; reflexivity|]. by vm_compute.
  - eexists. split; [vm_compute; reflexivity|]. by vm_compute.
Qed.

Lemma nested_container_skipped_witness :
  process_file (dquote :: (str "a" ++ [dquote]) ++ [] ++ ":"%char :: [] ++
                "{"%char :: json "'b':{},'model':'X'" ++
                "}"%char :: json ",'model':'Y'")
               initial_state =
  process_file (json ",'model':'Y'") initial_state.
Proof.
  destruct nested_container_skipped as [H _].
  apply (H (str "a" ++ [dquote]) (str "a") [] [] "{"%char
           (json "'b':{},'model':'X'") "}"%char (json ",'model':'Y'")
           initial_state eq_refl (Forall_nil_2 _) (Forall_nil_2 _) eq_refl
           balanced_nested_example eq_refl eq_refl).
Defined.

(** C3. At a key that decodes to the target key and whose value is not a
    string, the value is skipped and nothing is emitted: the scan goes on
    after the value from the state it had at the key, with the table, the
    counter and the values emitted untouched. Whatever the first byte [cv]
    of the value, a quote apart, the scan goes on from what
    [consume_json_value] leaves, or returns 0 with that same state when
    the skip fails. A token [t0 :: tok] (a number, true, false, null) is
    read up to the comma, brace, bracket or white space [d] that ends it,
    a comma, brace or bracket being left in the stream, or up to the end
    of the stream. An object or an array whose content [body] is balanced
    and shorter than [INT_MAX] bytes is read up to the byte that closes
    it, so that a target pair inside it is not counted. On the third input
    of the tests the value 123 is left out: three values are emitted, RDV2
    twice and ABC once. *)
Theorem model_non_string_value :
  (∀ lit key ws1 ws2 cv fp st,
     read_json_string lit = Some (key, []) →
     strcmp_eq key KEY_MODEL = true →
     all_space ws1 → all_space ws2 →
     isspace cv = false → cv ≠ dquote →
     process_file (dquote :: lit ++ ws1 ++ ":"%char :: ws2 ++ cv :: fp) st =
     match consume_json_value fp (Some cv) with
     | Skipped fp' => process_file fp' st
     | SkipFailed => Some (Returns 0 st)
     | SkipUndefined => Some Undefined
     end)
  ∧ (∀ lit key ws1 ws2 t0 tok d rest st,
       read_json_string lit = Some (key, []) →
       strcmp_eq key KEY_MODEL = true →
       all_space ws1 → all_space ws2 →
       Forall token_byte (t0 :: tok) → t0 ≠ dquote → is_open t0 = false →
       is_delim d = true ∨ isspace d = true →
       process_file (dquote :: lit ++ ws1 ++ ":"%char :: ws2 ++
                     t0 :: tok ++ d :: rest) st =
       process_file (if is_delim d then d :: rest else rest) st)
  ∧ (∀ lit key ws1 ws2 t0 tok st,
       read_json_string lit = Some (key, []) →
       strcmp_eq key KEY_MODEL = true →
       all_space ws1 → all_space ws2 →
       Forall token_byte (t0 :: tok) → t0 ≠ dquote → is_open t0 = false →
       process_file (dquote :: lit ++ ws1 ++ ":"%char :: ws2 ++ t0 :: tok) st =
       Some (Returns 1 st))
  ∧ (∀ lit key ws1 ws2 o body c rest st,
       read_json_string lit = Some (key, []) →
       strcmp_eq key KEY_MODEL = true →
       all_space ws1 → all_space ws2 → is_open o = true →
       balanced body → is_close c = true →
       Z.of_nat (length body) < INT_MAX →
       process_file (dquote :: lit ++ ws1 ++ ":"%char :: ws2 ++
                     o :: body ++ c :: rest) st =
       process_file rest st)
  ∧ (∃ st, process_file test_input_3 initial_state = Some (Returns 1 st)
           ∧ emitted st = [str "RDV2"; str "RDV2"; str "ABC"]
           ∧ models_seen st = 3
           ∧ size (table st) = 2
           ∧ get_count (table st) (str "RDV2") = 2
           ∧ get_count (table st) (str "ABC") = 1).
Proof.
  split_and!.
  - intros lit key ws1 ws2 cv fp st Hlit Hkey Hws1 Hws2 Hcv Hq.
    rewrite (process_file_key lit key) by done.
    unfold after_colon. apply is_char_neq in Hq. rewrite Hq, andb_false_r.
    by destruct (consume_json_value fp (Some cv)).
  - intros lit key ws1 ws2 t0 tok d rest st Hlit Hkey Hws1 Hws2 Htok Hq Ho Hd.
    rewrite (process_file_token lit key)
      by (done || apply (Forall_cons_1 _ _ _ Htok)).
    rewrite scalar_loop_token by done.
    destruct (is_delim d); [done|].
    by destruct Hd as [?| ->].
  - intros lit key ws1 ws2 t0 tok st Hlit Hkey Hws1 Hws2 Htok Hq Ho.
    rewrite (process_file_token lit key)
      by (done || apply (Forall_cons_1 _ _ _ Htok)).
    rewrite scalar_loop_eof by done.
    by rewrite process_file_unfold.
  - intros lit key ws1 ws2 o body c rest st Hlit Hkey Hws1 Hws2 Ho Hbody Hc Hlen.
    rewrite (process_file_container lit key) by done.
    by rewrite container_loop_closed.
  - eexists. split; [vm_compute; reflexivity|]. by vm_compute.
Qed.

Lemma model_non_string_value_witness :
  process_file (dquote :: (str "model" ++ [dquote]) ++ [] ++ ":"%char :: [] ++
                "1"%char :: str "23}") initial_state =
  process_file (str "}") initial_state
  ∧ process_file (dquote :: (str "model" ++ [dquote]) ++ [] ++ ":"%char :: [] ++
                  "1"%char :: json "'model':'X'" ++ "}"%char :: json ",'model':'Y'")
                 initial_state =
    process_file ("}"%char :: json ",'model':'Y'") initial_state
  ∧ process_file (dquote :: (str "model" ++ [dquote]) ++ [] ++ ":"%char :: [] ++
                  "n"%char :: str "ull") initial_state =
    Some (Returns 1 initial_state)
  ∧ process_file (dquote :: (str "model" ++ [dquote]) ++ [] ++ ":"%char :: [] ++
                  "{"%char :: json "'model':'X'" ++ "}"%char :: json ",'model':'Y'")
                 initial_state =
    process_file (json ",'model':'Y'") initial_state.
Proof.
  destruct model_non_string_value as (H1 & H2 & H3 & H4 & _).
  split_and!.
  - rewrite (H1 (str "model" ++ [dquote]) (str "model") [] [] "1"%char (str "23}")
               initial_state eq_refl eq_refl (Forall_nil_2 _) (Forall_nil_2 _)
               eq_refl ltac:(discriminate)).
    reflexivity.
  - apply (H2 (str "model" ++ [dquote]) (str "model") [] [] "1"%char
              (json "'model':'X'") "}"%char (json ",'model':'Y'") initial_state eq_refl eq_refl
              (Forall_nil_2 _) (Forall_nil_2 _)).
    + by repeat constructor.
    + discriminate.
    + reflexivity.
    + by left.
  - apply (H3 (str "model" ++ [dquote]) (str "model") [] [] "n"%char (str "ull")
              initial_state eq_refl eq_refl (Forall_nil_2 _) (Forall_nil_2 _)).
    + by repeat constructor.
    + discriminate.
    + reflexivity.
  - apply (H4 (str "model" ++ [dquote]) (str "model") [] [] "{"%char
              (json "'model':'X'") "}"%char (json ",'model':'Y'") initial_state
              eq_refl eq_refl (Forall_nil_2 _) (Forall_nil_2 _) eq_refl
              balanced_model_example eq_refl eq_refl).
Defined.

(** ** Containers that are cut *)

(** The claim C6 as it is written fails: a quote that comes right after
    a candidate key, and a quote inside an unquoted token that is being
    skipped, are read as plain bytes; the literal they would open is not
    closed and [process_file] returns 1. *)
Lemma unterminated_not_always_failure :
  closes (str "b") = false
  ∧ process_file (json "'a' " ++ dquote :: str "b") initial_state =
    Some (Returns 1 initial_state)
  ∧ process_file (json "'id':1" ++ dquote :: str "b") initial_state =
    Some (Returns 1 initial_state).
Proof. split_and!; vm_compute; reflexivity. Qed.

(** C6, amended. When a quote is read as the start of a string literal
    and the bytes [s] after it hold no quote that is not escaped,
    [process_file] returns 0: when the quote opens a candidate key, when
    it opens the value of a key (the target key or another), and when it
    is read outside a string by the container loop at a depth above 0. A
    container that the end of the stream cuts makes it return 0 too: one
    whose content [u], shorter than [INT_MAX] bytes, is balanced text up
    to the end of the stream, up to a string that is not closed, or up to
    a brace or a bracket that opens a container cut in the same way. *)
Theorem unterminated_string_fails s :
  closes s = false →
  (∀ st, process_file (dquote :: s) st = Some (Returns 0 st))
  ∧ (∀ lit key ws1 ws2 st,
       read_json_string lit = Some (key, []) →
       all_space ws1 → all_space ws2 →
       process_file (dquote :: lit ++ ws1 ++ ":"%char :: ws2 ++ dquote :: s) st =
       Some (Returns 0 st))
  ∧ (∀ lit key ws1 ws2 c body depth st,
       read_json_string lit = Some (key, []) →
       all_space ws1 → all_space ws2 → is_open c = true →
       0 < depth →
       (∀ rest, container_loop 1 false false (body ++ rest) =
                container_loop depth false false rest) →
       process_file (dquote :: lit ++ ws1 ++ ":"%char :: ws2 ++
                     c :: body ++ dquote :: s) st =
       Some (Returns 0 st))
  ∧ (∀ lit key ws1 ws2 c u st,
       read_json_string lit = Some (key, []) →
       all_space ws1 → all_space ws2 → is_open c = true →
       unclosed u → Z.of_nat (length u) < INT_MAX →
       process_file (dquote :: lit ++ ws1 ++ ":"%char :: ws2 ++ c :: u) st =
       Some (Returns 0 st)).
Proof.
  intros Hs. repeat split.
  - intros st. apply process_file_key_fails.
    by apply read_json_string_unterminated.
  - intros lit key ws1 ws2 st Hlit Hws1 Hws2.
    apply (process_file_value_fails lit key); try done.
    by apply read_json_string_unterminated.
  - intros lit key ws1 ws2 c body depth st Hlit Hws1 Hws2 Hc Hd Hbody.
    rewrite (process_file_container lit key) by done.
    rewrite Hbody. simpl.
    assert ((depth <=? 0) = false) as -> by lia. simpl.
    by rewrite container_loop_unterminated.
  - intros lit key ws1 ws2 c u st Hlit Hws1 Hws2 Hc Hu Hlen.
    rewrite (process_file_container lit key) by done.
    by rewrite container_loop_unclosed by (done || lia).
Qed.

Lemma unterminated_string_fails_witness :
  process_file (dquote :: (str "a" ++ [dquote]) ++ [] ++ ":"%char :: [] ++
                "["%char :: json "1,{'b':2}," ++ dquote :: str "model\")
               initial_state =
  Some (Returns 0 initial_state)
  ∧ process_file (dquote :: (str "a" ++ [dquote]) ++ [] ++ ":"%char :: [] ++
                  "["%char :: json "1,{'b':2},[3")
                 initial_state =
    Some (Returns 0 initial_state).
Proof.
  destruct (unterminated_string_fails (str "model\") eq_refl)
    as (_ & _ & H3 & H4).
  split.
  - apply (H3 (str "a" ++ [dquote]) (str "a") [] [] "["%char (json "1,{'b':2},") 1
              initial_state eq_refl (Forall_nil_2 _) (Forall_nil_2 _) eq_refl
              eq_refl (λ rest, eq_refl)).
  - apply (H4 (str "a" ++ [dquote]) (str "a") [] [] "["%char
              (json "1,{'b':2},[3") initial_state eq_refl (Forall_nil_2 _)
              (Forall_nil_2 _) eq_refl unclosed_example eq_refl).
Defined.

(** ** The table: entries and invariant *)

Lemma bucket_of_lt n k : 0 < n → (bucket_of n k < Z.to_nat n)%nat.
Proof.
  intros Hn. unfold bucket_of.
  pose proof (Z.mod_pos_bound (hash_str k) n Hn). lia.
Qed.

Lemma concat_insert_cons (bs : list chain) i e :
  (i < length bs)%nat →
  concat (<[i := e :: bs !!! i]> bs) ≡ₚ e :: concat bs.
Proof.
  revert i. induction bs as [|c bs IH]; intros i Hi; simpl in Hi; [lia|].
  destruct i as [|i]; simpl; [done|].
  rewrite IH by lia. by rewrite Permutation_middle.
Qed.

Lemma relink_length n nb e : length (relink n nb e) = length nb.
Proof. unfold relink. by rewrite length_insert. Qed.

Lemma foldl_relink_length n chain : ∀ nb,
  length (foldl (relink n) nb chain) = length nb.
Proof.
  induction chain as [|e chain IH]; intros nb; simpl; [done|].
  by rewrite IH, relink_length.
Qed.

Lemma relink_perm n nb e :
  0 < n → length nb = Z.to_nat n →
  concat (relink n nb e) ≡ₚ e :: concat nb.
Proof.
  intros Hn Hlen. unfold relink. apply concat_insert_cons.
  rewrite Hlen. by apply bucket_of_lt.
Qed.

Lemma foldl_relink_perm n chain : ∀ nb,
  0 < n → length nb = Z.to_nat n →
  concat (foldl (relink n) nb chain) ≡ₚ chain ++ concat nb.
Proof.
  induction chain as [|e chain IH]; intros nb Hn Hlen; simpl; [done|].
  rewrite IH by (by rewrite ?relink_length).
  rewrite relink_perm by done. by rewrite Permutation_middle.
Qed.

Lemma relink_placed n nb e :
  placed n nb → placed n (relink n nb e).
Proof.
  intros Hp i c x Hi Hx. unfold relink in Hi.
  destruct (decide (bucket_of n (key e) = i)) as [<-|Hne].
  - destruct (decide (bucket_of n (key e) < length nb)%nat) as [Hlt|Hge].
    + rewrite list_lookup_insert_eq in Hi by done. inversion Hi; subst.
      apply elem_of_cons in Hx as [->|Hx]; [done|].
      apply (Hp _ (nb !!! bucket_of n (key e))); [|done].
      by apply list_lookup_lookup_total_lt.
    + rewrite list_insert_ge in Hi by lia. by apply (Hp _ c).
  - rewrite list_lookup_insert_ne in Hi by done. by apply (Hp _ c).
Qed.

Lemma foldl_relink_placed n chain : ∀ nb,
  placed n nb → placed n (foldl (relink n) nb chain).
Proof.
  induction chain as [|e chain IH]; intros nb Hp; simpl; [done|].
  by apply IH, relink_placed.
Qed.

(** The loop over the indices of the old array is a loop over its
    chains. *)
Lemma foldl_seq_lookup {A} (g : A → chain → A) (l : list chain) : ∀ pre a,
  foldl (λ x i, g x ((pre ++ l) !!! i)) a (seq (length pre) (length l)) =
  foldl g a l.
Proof.
  induction l as [|c l IH]; intros pre a; simpl; [done|].
  rewrite (list_lookup_total_middle pre (l) c (length pre)) by done.
  specialize (IH (pre ++ [c]) (g a c)).
  rewrite length_app in IH. simpl in IH.
  rewrite <- app_assoc in IH. simpl in IH.
  by rewrite Nat.add_1_r in IH.
Qed.

Lemma table_rehash_buckets t :
  length (buckets t) = Z.to_nat (bucket_count t) →
  buckets (table_rehash t) =
  rehash_buckets (wrap64 (bucket_count t * 2)) (buckets t).
Proof.
  intros Hlen. unfold table_rehash, rehash_buckets. simpl.
  rewrite <- Hlen. apply (foldl_seq_lookup _ (buckets t) []).
Qed.

Lemma foldl_chains_length n bs : ∀ nb,
  length (foldl (λ nb c, foldl (relink n) nb c) nb bs) = length nb.
Proof.
  induction bs as [|c bs IH]; intros nb; simpl; [done|].
  by rewrite IH, foldl_relink_length.
Qed.

Lemma foldl_chains_perm n bs : ∀ nb,
  0 < n → length nb = Z.to_nat n →
  concat (foldl (λ nb c, foldl (relink n) nb c) nb bs) ≡ₚ concat bs ++ concat nb.
Proof.
  induction bs as [|c bs IH]; intros nb Hn Hlen; simpl; [done|].
  rewrite IH by (by rewrite ?foldl_relink_length).
  rewrite foldl_relink_perm by done.
  rewrite <- app_assoc. apply Permutation_app_swap_app.
Qed.

Lemma foldl_chains_placed n bs : ∀ nb,
  placed n nb → placed n (foldl (λ nb c, foldl (relink n) nb c) nb bs).
Proof.
  induction bs as [|c bs IH]; intros nb Hp; simpl; [done|].
  by apply IH, foldl_relink_placed.
Qed.

Lemma placed_replicate n m : placed n (replicate m []).
Proof.
  intros i c e Hi He. apply lookup_replicate in Hi as [-> _].
  by apply elem_of_nil in He.
Qed.

Lemma concat_replicate_nil {A} m : concat (replicate m (@nil A)) = [].
Proof. induction m; simpl; done. Qed.

Lemma rehash_buckets_length n bs :
  length (rehash_buckets n bs) = Z.to_nat n.
Proof.
  unfold rehash_buckets. by rewrite foldl_chains_length, length_replicate.
Qed.

Lemma rehash_buckets_perm n bs :
  0 < n → concat (rehash_buckets n bs) ≡ₚ concat bs.
Proof.
  intros Hn. unfold rehash_buckets.
  rewrite foldl_chains_perm by (by rewrite ?length_replicate).
  by rewrite concat_replicate_nil, app_nil_r.
Qed.

Lemma rehash_buckets_placed n bs : placed n (rehash_buckets n bs).
Proof. apply foldl_chains_placed, placed_replicate. Qed.

(** ** C strings *)

Lemma strcmp_eq_spec a : ∀ b, strcmp_eq a b = true ↔ c_str a = c_str b.
Proof.
  induction a as [|c a IH]; intros [|d b]; simpl.
  - done.
  - destruct (is_char d NUL); split; done.
  - destruct (is_char c NUL); split; done.
  - destruct (is_char c d) eqn:Hcd.
    + apply is_char_eq in Hcd as <-.
      destruct (is_char c NUL); [done|].
      rewrite IH. split; [by intros ->|by intros [=]].
    + apply is_char_neq in Hcd.
      destruct (is_char c NUL) eqn:Hc, (is_char d NUL) eqn:Hd;
        try (split; [done|intros [=]; done]).
      apply is_char_eq in Hc, Hd. congruence.
Qed.

Lemma strcmp_eq_false a b : strcmp_eq a b = false ↔ c_str a ≠ c_str b.
Proof.
  rewrite <- strcmp_eq_spec. by destruct (strcmp_eq a b).
Qed.

Lemma c_str_idem a : c_str (c_str a) = c_str a.
Proof.
  induction a as [|c a IH]; simpl; [done|].
  destruct (is_char c NUL) eqn:Hc; simpl; [done|]. by rewrite Hc, IH.
Qed.

Lemma hash_loop_c_str a : ∀ h, hash_loop h (c_str a) = hash_loop h a.
Proof.
  induction a as [|c a IH]; intros h; simpl; [done|].
  destruct (is_char c NUL) eqn:Hc; simpl; [done|]. by rewrite Hc, IH.
Qed.

Lemma hash_str_ext a b : c_str a = c_str b → hash_str a = hash_str b.
Proof.
  intros H. unfold hash_str.
  by rewrite <- (hash_loop_c_str a), <- (hash_loop_c_str b), H.
Qed.

Lemma bucket_of_ext n a b : c_str a = c_str b → bucket_of n a = bucket_of n b.
Proof. intros H. unfold bucket_of. by rewrite (hash_str_ext a b). Qed.

Lemma strcmp_eq_ext a b k :
  c_str a = c_str b → strcmp_eq k a = strcmp_eq k b.
Proof.
  intros H. destruct (strcmp_eq k b) eqn:E.
  - apply strcmp_eq_spec. apply strcmp_eq_spec in E. congruence.
  - apply strcmp_eq_false. apply strcmp_eq_false in E. congruence.
Qed.

(** ** Chains *)

Lemma chain_inc_Some c k : ∀ c',
  chain_inc c k = Some c' →
  ∃ c1 e c2, c = c1 ++ e :: c2 ∧ c' = c1 ++ bump e :: c2
             ∧ strcmp_eq (key e) k = true.
Proof.
  induction c as [|x c IH]; intros c' H; simpl in H; [done|].
  destruct (strcmp_eq (key x) k) eqn:E.
  - inversion H; subst. by exists [], x, c.
  - destruct (chain_inc c k) as [c0|] eqn:E0; [|done].
    inversion H; subst.
    destruct (IH c0 eq_refl) as (c1 & e & c2 & -> & -> & He).
    by exists (x :: c1), e, c2.
Qed.

Lemma chain_inc_None c k :
  chain_inc c k = None → ∀ e, e ∈ c → strcmp_eq (key e) k = false.
Proof.
  induction c as [|x c IH]; intros H e He; simpl in H.
  - by apply elem_of_nil in He.
  - destruct (strcmp_eq (key x) k) eqn:E; [done|].
    destruct (chain_inc c k) eqn:E0; [done|].
    apply elem_of_cons in He as [->|He]; [done|]. by apply IH.
Qed.

Lemma chain_inc_ext c a b :
  c_str a = c_str b → chain_inc c a = chain_inc c b.
Proof.
  intros H. induction c as [|x c IH]; simpl; [done|].
  by rewrite (strcmp_eq_ext a b), IH.
Qed.

Lemma chain_count_ext c a b :
  c_str a = c_str b → chain_count c a = chain_count c b.
Proof.
  intros H. induction c as [|x c IH]; simpl; [done|].
  by rewrite (strcmp_eq_ext a b), IH.
Qed.

Lemma chain_count_unique l k e :
  e ∈ l → strcmp_eq (key e) k = true →
  (∀ e', e' ∈ l → strcmp_eq (key e') k = true → e' = e) →
  chain_count l k = count e.
Proof.
  induction l as [|x l IH]; intros He Hk Hu.
  - by apply elem_of_nil in He.
  - simpl. destruct (strcmp_eq (key x) k) eqn:E.
    + by rewrite (Hu x) by (done || apply elem_of_cons; auto).
    + apply elem_of_cons in He as [->|He]; [congruence|].
      apply IH; [done..|]. intros e' He' Hk'. apply Hu; [|done].
      apply elem_of_cons; auto.
Qed.

Lemma chain_count_absent l k :
  (∀ e, e ∈ l → strcmp_eq (key e) k = false) → chain_count l k = 0.
Proof.
  induction l as [|x l IH]; intros H; simpl; [done|].
  rewrite H by (apply elem_of_cons; auto).
  apply IH. intros e He. apply H, elem_of_cons; auto.
Qed.

Lemma nodup_keys_unique (l : list Entry) e e' :
  NoDup (key <$> l) → e ∈ l → e' ∈ l → key e = key e' → e = e'.
Proof.
  induction l as [|x l IH]; intros Hnd He He' Hk.
  - by apply elem_of_nil in He.
  - rewrite fmap_cons in Hnd.
    pose proof (NoDup_cons_1_1 _ _ Hnd) as Hx. apply NoDup_cons_1_2 in Hnd.
    apply elem_of_cons in He as [->|He], He' as [->|He']; [done|..].
    + exfalso. apply Hx. rewrite Hk. by apply list_elem_of_fmap_2.
    + exfalso. apply Hx. rewrite <- Hk. by apply list_elem_of_fmap_2.
    + by apply IH.
Qed.

(** In a list of entries with C-string keys, no two of them equal, the
    entries that [strcmp] finds equal to [k] are one entry at most. *)
Lemma match_unique (l : list Entry) k e e' :
  NoDup (key <$> l) → (∀ x, x ∈ l → c_str (key x) = key x) →
  e ∈ l → e' ∈ l →
  strcmp_eq (key e) k = true → strcmp_eq (key e') k = true → e' = e.
Proof.
  intros Hnd Hc He He' Hk Hk'.
  apply strcmp_eq_spec in Hk, Hk'.
  apply (nodup_keys_unique l); [done..|].
  rewrite <- (Hc e), <- (Hc e') by done. congruence.
Qed.

Lemma chain_count_perm (l l' : list Entry) k :
  NoDup (key <$> l) → (∀ x, x ∈ l → c_str (key x) = key x) →
  l ≡ₚ l' → chain_count l k = chain_count l' k.
Proof.
  intros Hnd Hc Hp.
  destruct (decide (c_str k ∈ key <$> l)) as [Hin|Hout].
  - apply list_elem_of_fmap in Hin as (e & Hke & He).
    assert (strcmp_eq (key e) k = true) as Hk.
    { apply strcmp_eq_spec. by rewrite <- Hke, c_str_idem. }
    rewrite (chain_count_unique l k e); [|done..|].
    + symmetry. apply chain_count_unique; [by rewrite <- Hp|done|].
      intros e' He' Hk'. apply (match_unique l k); try done. by rewrite Hp.
    + intros e' He' Hk'. by apply (match_unique l k).
  - assert (∀ e, e ∈ l → strcmp_eq (key e) k = false) as Hno.
    { intros e He. apply strcmp_eq_false. intros Heq. apply Hout.
      rewrite <- Heq, (Hc e) by done. by apply list_elem_of_fmap_2. }
    rewrite !chain_count_absent; [done| |done].
    intros e He. apply Hno. by rewrite Hp.
Qed.

(** ** Reading the table *)

Lemma elem_of_concat_lookup (bs : list chain) e :
  e ∈ concat bs ↔ ∃ i c, bs !! i = Some c ∧ e ∈ c.
Proof.
  induction bs as [|c bs IH]; simpl.
  - split; [by intros ?%elem_of_nil|by intros (i & c & ? & _)].
  - rewrite elem_of_app, IH. split.
    + intros [He|(i & c' & Hi & He)]; [by exists 0%nat, c|by exists (S i), c'].
    + intros ([|i] & c' & Hi & He); simpl in Hi.
      * inversion Hi; subst. by left.
      * right. by exists i, c'.
Qed.

Lemma elem_of_bucket t i e :
  e ∈ buckets t !!! i → e ∈ entries t.
Proof.
  intros He. apply elem_of_concat_lookup.
  destruct (buckets t !! i) as [c|] eqn:Hi.
  - exists i, c. split; [done|].
    by rewrite (list_lookup_total_correct _ _ _ Hi) in He.
  - rewrite list_lookup_total_alt, Hi in He. by apply elem_of_nil in He.
Qed.

(** An entry whose key [strcmp] finds equal to [k] is in the chain
    that [table_inc] and [get_count] walk for [k]. *)
Lemma match_in_bucket t k e :
  table_wf t → e ∈ entries t → strcmp_eq (key e) k = true →
  e ∈ buckets t !!! bucket_of (bucket_count t) k.
Proof.
  intros Hwf He Hk.
  apply elem_of_concat_lookup in He as (i & c & Hi & He).
  pose proof (wf_place t Hwf i c e Hi He) as Hb.
  apply strcmp_eq_spec in Hk.
  rewrite <- (bucket_of_ext _ _ _ Hk), Hb.
  by rewrite (list_lookup_total_correct _ _ _ Hi).
Qed.

Lemma get_count_entries t k :
  table_wf t → get_count t k = chain_count (entries t) k.
Proof.
  intros Hwf. unfold get_count.
  destruct (decide (c_str k ∈ key <$> entries t)) as [Hin|Hout].
  - apply list_elem_of_fmap in Hin as (e & Hke & He).
    assert (strcmp_eq (key e) k = true) as Hk.
    { apply strcmp_eq_spec. by rewrite <- Hke, c_str_idem. }
    assert (∀ e', e' ∈ entries t → strcmp_eq (key e') k = true → e' = e) as Hu.
    { intros e' He' Hk'.
      by apply (match_unique (entries t) k); [apply Hwf|apply Hwf|..]. }
    rewrite (chain_count_unique (entries t) k e) by done.
    apply chain_count_unique; [by apply match_in_bucket|done|].
    intros e' He' Hk'. apply Hu; [|done]. by eapply elem_of_bucket.
  - assert (∀ e, e ∈ entries t → strcmp_eq (key e) k = false) as Hno.
    { intros e He. apply strcmp_eq_false. intros Heq. apply Hout.
      rewrite <- Heq, (wf_cstr t Hwf e) by done.
      by apply list_elem_of_fmap_2. }
    rewrite !chain_count_absent; [done|done|].
    intros e He. apply Hno. by eapply elem_of_bucket.
Qed.

(** ** Growing the table *)

Lemma table_rehash_entries t :
  length (buckets t) = Z.to_nat (bucket_count t) →
  0 < bucket_count t → bucket_count t * 2 < 2 ^ 64 →
  entries (table_rehash t) ≡ₚ entries t.
Proof.
  intros Hlen Hpos Hlt. unfold entries.
  rewrite table_rehash_buckets by done.
  apply rehash_buckets_perm. unfold wrap64.
  rewrite Z.mod_small; lia.
Qed.

Lemma table_rehash_count t :
  0 < bucket_count t → bucket_count t * 2 < 2 ^ 64 →
  bucket_count (table_rehash t) = bucket_count t * 2.
Proof.
  intros Hpos Hlt. unfold table_rehash, wrap64. simpl.
  rewrite Z.mod_small; lia.
Qed.

Lemma table_rehash_wf t :
  table_wf t → bucket_count t * 2 < 2 ^ 64 → table_wf (table_rehash t).
Proof.
  intros Hwf Hlt.
  pose proof (wf_len t Hwf) as Hlen. pose proof (wf_pos t Hwf) as Hpos.
  pose proof (table_rehash_entries t Hlen Hpos Hlt) as Hperm.
  pose proof (table_rehash_count t Hpos Hlt) as Hcount.
  split.
  - rewrite table_rehash_buckets, rehash_buckets_length by done.
    reflexivity.
  - lia.
  - rewrite table_rehash_buckets by done.
    rewrite Hcount. unfold wrap64. rewrite Z.mod_small by lia.
    apply rehash_buckets_placed.
  - rewrite Hperm. apply Hwf.
  - intros e He. rewrite Hperm in He. by apply Hwf.
  - rewrite Hperm. apply Hwf.
  - intros e He. rewrite Hperm in He. by apply Hwf.
Qed.

(** C5. Growing a table whose bucket array has [bucket_count] chains,
    with [bucket_count] above 0 and its double below [2^64], keeps the
    entries: the entries of the new array are the old ones, each once,
    with its key and its count, each in the chain of the bucket its key
    hashes to among the doubled number of buckets, and [size] is not
    changed; [get_count] reads the same count for every key of a
    well-formed table. *)
Theorem table_rehash_preserves t :
  length (buckets t) = Z.to_nat (bucket_count t) →
  0 < bucket_count t → bucket_count t * 2 < 2 ^ 64 →
  entries (table_rehash t) ≡ₚ entries t
  ∧ size (table_rehash t) = size t
  ∧ bucket_count (table_rehash t) = bucket_count t * 2
  ∧ length (buckets (table_rehash t)) = Z.to_nat (bucket_count t * 2)
  ∧ (∀ e, e ∈ entries t →
          e ∈ buckets (table_rehash t) !!! bucket_of (bucket_count t * 2) (key e))
  ∧ (table_wf t → ∀ k, get_count (table_rehash t) k = get_count t k).
Proof.
  intros Hlen Hpos Hlt.
  pose proof (table_rehash_entries t Hlen Hpos Hlt) as Hperm.
  pose proof (table_rehash_count t Hpos Hlt) as Hcount.
  assert (wrap64 (bucket_count t * 2) = bucket_count t * 2) as Hw.
  { unfold wrap64. rewrite Z.mod_small; lia. }
  split; [done|]. split; [done|]. split; [done|]. split; [|split].
  - by rewrite table_rehash_buckets, rehash_buckets_length, Hw.
  - intros e He. rewrite <- Hperm in He.
    apply elem_of_concat_lookup in He as (i & c & Hi & He).
    assert (bucket_of (bucket_count t * 2) (key e) = i) as ->.
    { rewrite table_rehash_buckets, Hw in Hi by done.
      by apply (rehash_buckets_placed _ (buckets t) i c e). }
    by rewrite (list_lookup_total_correct _ _ _ Hi).
  - intros Hwf k.
    rewrite !get_count_entries by (done || by apply table_rehash_wf).
    symmetry. apply chain_count_perm; [apply Hwf|apply Hwf|done].
Qed.

(** ** One increment *)

Lemma bucket_split t i :
  (i < length (buckets t))%nat →
  buckets t = take i (buckets t) ++ (buckets t !!! i) :: drop (S i) (buckets t).
Proof.
  intros Hi. symmetry. apply take_drop_middle.
  by apply list_lookup_lookup_total_lt.
Qed.

Lemma table_put_bucket_count t k :
  bucket_count (table_put t k) = bucket_count t.
Proof. unfold table_put. by case_match. Qed.

Lemma table_put_length t k :
  length (buckets (table_put t k)) = length (buckets t).
Proof. unfold table_put. case_match; simpl; by rewrite length_insert. Qed.

Lemma elem_of_mid {A} (x : A) (l1 l2 : list A) : x ∈ l1 ++ x :: l2.
Proof. apply elem_of_app. right. apply elem_of_cons. by left. Qed.

Lemma placed_insert n (bs : list chain) i c' :
  placed n bs → (∀ e, e ∈ c' → bucket_of n (key e) = i) →
  placed n (<[i := c']> bs).
Proof.
  intros Hp Hc j c e Hj He.
  destruct (decide (i = j)) as [<-|Hne].
  - destruct (decide (i < length bs)%nat) as [Hlt|Hge].
    + rewrite list_lookup_insert_eq in Hj by done. inversion Hj; subst.
      by apply Hc.
    + rewrite list_insert_ge in Hj by lia. by apply (Hp _ c).
  - rewrite list_lookup_insert_ne in Hj by done. by apply (Hp _ c).
Qed.

Lemma fresh_not_in_keys (l : list Entry) k :
  (∀ e, e ∈ l → c_str (key e) = key e) →
  (∀ e, e ∈ l → strcmp_eq (key e) k = false) ↔ c_str k ∉ key <$> l.
Proof.
  intros Hc. split.
  - intros Hno Hin. apply list_elem_of_fmap in Hin as (e & Hke & He).
    specialize (Hno e He). apply strcmp_eq_false in Hno.
    apply Hno. by rewrite <- Hke, c_str_idem.
  - intros Hout e He. apply strcmp_eq_false. intros Heq. apply Hout.
    rewrite <- Heq, (Hc e) by done. by apply list_elem_of_fmap_2.
Qed.

Section put.
Context (t : HashTable) (k : list ascii) (Hwf : table_wf t).

(** What [table_put] does to the entries: the first entry of the table
    that [strcmp] finds equal to [k] has its count incremented, or there
    is none and a new entry comes in. *)
Lemma table_put_cases :
  (∃ A e B, entries t = A ++ e :: B
            ∧ entries (table_put t k) = A ++ bump e :: B
            ∧ strcmp_eq (key e) k = true
            ∧ size (table_put t k) = size t)
  ∨ (∃ A B, entries t = A ++ B
            ∧ entries (table_put t k) = A ++ fresh_entry k :: B
            ∧ (∀ e, e ∈ entries t → strcmp_eq (key e) k = false)
            ∧ size (table_put t k) = wrap64 (size t + 1)).
Proof.
  set (i := bucket_of (bucket_count t) k).
  assert (i < length (buckets t))%nat as Hi.
  { rewrite (wf_len t Hwf). apply bucket_of_lt, Hwf. }
  pose proof (bucket_split t i Hi) as Hsplit.
  unfold table_put. fold i.
  destruct (chain_inc (buckets t !!! i) k) as [c'|] eqn:E.
  - left. apply chain_inc_Some in E as (c1 & e & c2 & Hc & -> & Hk).
    exists (concat (take i (buckets t)) ++ c1), e,
      (c2 ++ concat (drop (S i) (buckets t))).
    split; [|split; [|done]].
    + unfold entries. rewrite Hsplit at 1. rewrite concat_app. simpl.
      rewrite Hc. by rewrite <- !app_assoc.
    + unfold entries. simpl. rewrite insert_take_drop by done.
      rewrite concat_app. simpl. by rewrite <- !app_assoc.
  - right.
    exists (concat (take i (buckets t))),
      (buckets t !!! i ++ concat (drop (S i) (buckets t))).
    split; [|split; [|split; [|done]]].
    + unfold entries. rewrite Hsplit at 1. by rewrite concat_app.
    + unfold entries. simpl. rewrite insert_take_drop by done.
      by rewrite concat_app.
    + intros e He. destruct (strcmp_eq (key e) k) eqn:Hk; [|done].
      pose proof (match_in_bucket t k e Hwf He Hk) as Hin.
      by rewrite (chain_inc_None _ _ E e Hin) in Hk.
Qed.

Lemma table_put_placed :
  placed (bucket_count (table_put t k)) (buckets (table_put t k)).
Proof.
  rewrite table_put_bucket_count.
  set (i := bucket_of (bucket_count t) k).
  assert (i < length (buckets t))%nat as Hi.
  { rewrite (wf_len t Hwf). apply bucket_of_lt, Hwf. }
  pose proof (list_lookup_lookup_total_lt (buckets t) i Hi) as Hc.
  unfold table_put. fold i.
  destruct (chain_inc (buckets t !!! i) k) as [c'|] eqn:E; simpl;
    apply placed_insert; try apply Hwf.
  - apply chain_inc_Some in E as (c1 & e & c2 & Heq & -> & Hk).
    intros x Hx. rewrite Heq in Hc.
    apply elem_of_app in Hx as [Hx|Hx].
    + apply (wf_place t Hwf i _ x Hc). apply elem_of_app. by left.
    + apply elem_of_cons in Hx as [->|Hx].
      * apply (wf_place t Hwf i _ e Hc). apply elem_of_app. right.
        apply elem_of_cons. by left.
      * apply (wf_place t Hwf i _ x Hc). apply elem_of_app. right.
        apply elem_of_cons. by right.
  - intros x Hx. apply elem_of_cons in Hx as [->|Hx].
    + simpl. apply bucket_of_ext, c_str_idem.
    + by apply (wf_place t Hwf i _ x Hc).
Qed.

Lemma table_put_wf :
  size t + 1 < 2 ^ 64 → table_wf (table_put t k).
Proof.
  intros Hlt. split.
  - rewrite table_put_length, table_put_bucket_count. apply Hwf.
  - rewrite table_put_bucket_count. apply Hwf.
  - apply table_put_placed.
  - pose proof (wf_nodup t Hwf) as Hnd.
    destruct table_put_cases
      as [(A & e & B & H1 & H2 & Hk & Hs)|(A & B & H1 & H2 & Hno & Hs)].
    + rewrite H2. rewrite H1 in Hnd. by rewrite fmap_app in Hnd |- *.
    + rewrite H2, fmap_app, fmap_cons. rewrite <- Permutation_middle.
      apply NoDup_cons_2.
      * rewrite <- fmap_app, <- H1. apply fresh_not_in_keys; [apply Hwf|done].
      * by rewrite <- fmap_app, <- H1.
  - pose proof (wf_cstr t Hwf) as Hc.
    destruct table_put_cases
      as [(A & e & B & H1 & H2 & Hk & Hs)|(A & B & H1 & H2 & Hno & Hs)];
      rewrite H2; rewrite H1 in Hc; intros x Hx;
      apply elem_of_app in Hx as [Hx|Hx];
      try (apply Hc, elem_of_app; by left);
      apply elem_of_cons in Hx as [->|Hx].
    + apply (Hc e), elem_of_mid.
    + apply Hc, elem_of_app. right. apply elem_of_cons. by right.
    + apply c_str_idem.
    + apply Hc, elem_of_app. by right.
  - pose proof (wf_size t Hwf) as Hsz.
    destruct table_put_cases
      as [(A & e & B & H1 & H2 & Hk & Hs)|(A & B & H1 & H2 & Hno & Hs)];
      rewrite Hs, H2; rewrite H1 in Hsz.
    + rewrite Hsz, !length_app. simpl. done.
    + unfold wrap64. rewrite Z.mod_small by lia.
      rewrite Hsz, !length_app. simpl. lia.
  - pose proof (wf_count t Hwf) as Hc.
    destruct table_put_cases
      as [(A & e & B & H1 & H2 & Hk & Hs)|(A & B & H1 & H2 & Hno & Hs)];
      rewrite H2; rewrite H1 in Hc; intros x Hx;
      apply elem_of_app in Hx as [Hx|Hx];
      try (apply Hc, elem_of_app; by left);
      apply elem_of_cons in Hx as [->|Hx].
    + simpl. unfold wrap64. apply Z.mod_pos_bound. lia.
    + apply Hc, elem_of_app. right. apply elem_of_cons. by right.
    + simpl. lia.
    + apply Hc, elem_of_app. by right.
Qed.

End put.

Lemma sum_counts_app l1 l2 :
  sum_counts (l1 ++ l2) = sum_counts l1 + sum_counts l2.
Proof. induction l1 as [|e l1 IH]; simpl; [done|]. rewrite IH. lia. Qed.

#[global] Instance sum_counts_perm : Proper ((≡ₚ) ==> (=)) sum_counts.
Proof.
  intros l1 l2 H. induction H; simpl; lia.
Qed.

Lemma wf_size_nonneg t : table_wf t → 0 ≤ size t.
Proof. intros Hwf. rewrite (wf_size t Hwf). lia. Qed.

Lemma table_rehash_get_count t k :
  table_wf t → bucket_count t * 2 < 2 ^ 64 →
  get_count (table_rehash t) k = get_count t k.
Proof.
  intros Hwf Hlt.
  rewrite !get_count_entries by (done || by apply table_rehash_wf).
  symmetry. apply chain_count_perm; [apply Hwf|apply Hwf|].
  symmetry. apply table_rehash_entries; [apply Hwf|apply Hwf|done].
Qed.

Lemma mod4_inv a : a mod 4 = 0 → ∃ q, a = 4 * q.
Proof.
  intros H. exists (a / 4). rewrite (Z.div_mod a 4) at 1 by lia. lia.
Qed.

Lemma mod4_double a : a mod 4 = 0 → (a * 2) mod 4 = 0.
Proof. intros H. rewrite Z.mul_mod, H by lia. reflexivity. Qed.

(** The growth check: after it the load is below 3/4. *)
Lemma table_grow_spec t :
  table_wf t → table_fits t → size t < 2 ^ 60 →
  table_wf (table_grow t)
  ∧ bucket_count (table_grow t) mod 4 = 0
  ∧ size (table_grow t) * 4 < bucket_count (table_grow t) * 3
  ∧ bucket_count (table_grow t) < 2 ^ 62
  ∧ size (table_grow t) = size t
  ∧ entries (table_grow t) ≡ₚ entries t
  ∧ (∀ k, get_count (table_grow t) k = get_count t k).
Proof.
  intros Hwf (Hmod & Hload & Hbc) Hsz.
  pose proof (wf_size_nonneg t Hwf) as H0. pose proof (wf_pos t Hwf) as Hpos.
  unfold table_grow, LOAD_FACTOR_NUM, LOAD_FACTOR_DEN, wrap64.
  rewrite !Z.mod_small by lia.
  destruct (bucket_count t * 3 <=? size t * 4) eqn:E.
  - apply Z.leb_le in E.
    assert (bucket_count t * 2 < 2 ^ 64) as Hlt by lia.
    rewrite (table_rehash_count t Hpos Hlt).
    split; [by apply table_rehash_wf|].
    split; [by apply mod4_double|].
    split_and!; try (simpl; lia).
    + apply table_rehash_entries; [apply Hwf|done..].
    + intros k. by apply table_rehash_get_count.
  - apply Z.leb_gt in E. split_and!; (done || lia).
Qed.

Lemma table_inc_wf t k :
  table_wf t → table_fits t → size t < 2 ^ 60 →
  table_wf (table_inc t k) ∧ table_fits (table_inc t k).
Proof.
  intros Hwf Hfit Hsz.
  destruct (table_grow_spec t Hwf Hfit Hsz)
    as (Hwf1 & Hmod & Hload & Hbc & Hs & _).
  pose proof (wf_size_nonneg _ Hwf1) as H0.
  unfold table_inc. split; [apply table_put_wf; [done|lia]|].
  unfold table_fits. rewrite table_put_bucket_count.
  split; [done|]. split; [|done].
  destruct (mod4_inv _ Hmod) as [q Hq].
  destruct (table_put_cases (table_grow t) k Hwf1)
    as [(A & e & B & H1 & H2 & Hk & Hs')|(A & B & H1 & H2 & Hno & Hs')];
    rewrite Hs'; [lia|].
  unfold wrap64. rewrite Z.mod_small by lia. lia.
Qed.

Lemma chain_count_skip (A B : list Entry) x k :
  strcmp_eq (key x) k = false →
  chain_count (A ++ x :: B) k = chain_count (A ++ B) k.
Proof.
  intros Hx. induction A as [|a A IH]; simpl; [by rewrite Hx|].
  by rewrite IH.
Qed.

Lemma strcmp_eq_trans_false a b k :
  strcmp_eq a k = true → strcmp_eq b k = false → strcmp_eq a b = false.
Proof.
  intros H1%strcmp_eq_spec H2%strcmp_eq_false. apply strcmp_eq_false.
  congruence.
Qed.

(** [table_put] seen through [get_count]. *)
Lemma table_put_get_count t k k' :
  table_wf t → size t + 1 < 2 ^ 64 →
  get_count (table_put t k) k' =
  if strcmp_eq k' k then wrap64 (get_count t k' + 1) else get_count t k'.
Proof.
  intros Hwf Hlt.
  pose proof (table_put_wf t k Hwf Hlt) as Hwf'.
  rewrite !get_count_entries by done.
  destruct (table_put_cases t k Hwf)
    as [(A & e & B & H1 & H2 & Hk & Hs)|(A & B & H1 & H2 & Hno & Hs)].
  - rewrite H2, H1. destruct (strcmp_eq k' k) eqn:Hk'.
    + apply strcmp_eq_spec in Hk'. apply strcmp_eq_spec in Hk.
      assert (strcmp_eq (key e) k' = true) as Hek
        by (apply strcmp_eq_spec; congruence).
      rewrite (chain_count_unique (A ++ e :: B) k' e); [| |done|].
      * apply (chain_count_unique _ k' (bump e)); [|done|].
        { apply elem_of_mid. }
        intros x Hx Hxk. rewrite <- H2 in Hx.
        apply (match_unique (entries (table_put t k)) k');
          try done; try apply Hwf'.
        rewrite H2. apply elem_of_mid.
      * apply elem_of_mid.
      * intros x Hx Hxk. rewrite <- H1 in Hx.
        apply (match_unique (entries t) k'); try done; try apply Hwf.
        rewrite H1. apply elem_of_mid.
    + assert (strcmp_eq (key e) k' = false) as Hek.
      { apply strcmp_eq_false. apply strcmp_eq_spec in Hk.
        apply strcmp_eq_false in Hk'. congruence. }
      by rewrite !chain_count_skip.
  - rewrite H2, H1. destruct (strcmp_eq k' k) eqn:Hk'.
    + apply strcmp_eq_spec in Hk'.
      assert (∀ e, e ∈ A ++ B → strcmp_eq (key e) k' = false) as Hno'.
      { intros e He. rewrite (strcmp_eq_ext k' k) by done.
        apply Hno. by rewrite H1. }
      rewrite (chain_count_absent (A ++ B)) by done.
      rewrite (chain_count_unique _ k' (fresh_entry k)); [done| | |].
      * apply elem_of_mid.
      * apply strcmp_eq_spec. simpl. unfold xstrdup.
        by rewrite c_str_idem.
      * intros x Hx Hxk.
        apply elem_of_app in Hx as [Hx|Hx].
        { rewrite Hno' in Hxk; [done|]. apply elem_of_app. by left. }
        apply elem_of_cons in Hx as [->|Hx]; [done|].
        rewrite Hno' in Hxk; [done|]. apply elem_of_app. by right.
    + rewrite chain_count_skip; [done|].
      apply strcmp_eq_false. simpl. unfold xstrdup. rewrite c_str_idem.
      apply strcmp_eq_false in Hk'. congruence.
Qed.

Lemma table_inc_get_count t k k' :
  table_wf t → table_fits t → size t < 2 ^ 60 →
  get_count (table_inc t k) k' =
  if strcmp_eq k' k then wrap64 (get_count t k' + 1) else get_count t k'.
Proof.
  intros Hwf Hfit Hsz.
  destruct (table_grow_spec t Hwf Hfit Hsz)
    as (Hwf1 & Hmod & Hload & Hbc & Hs & _ & Hget).
  unfold table_inc. rewrite table_put_get_count by (done || lia).
  by rewrite Hget.
Qed.

Lemma wrap64_add_l a b : wrap64 (wrap64 a + b) = wrap64 (a + b).
Proof. unfold wrap64. by rewrite Z.add_mod_idemp_l. Qed.

Lemma wrap64_add_r a b : wrap64 (a + wrap64 b) = wrap64 (a + b).
Proof. unfold wrap64. by rewrite Z.add_mod_idemp_r. Qed.

(** [table_inc] seen through the keys, [size] and the sum of the
    counts. *)
Lemma table_inc_keys t k :
  table_wf t → table_fits t → size t < 2 ^ 60 →
  ((c_str k ∈ keys t ∧ keys (table_inc t k) ≡ₚ keys t
    ∧ size (table_inc t k) = size t)
   ∨ ((c_str k ∉ keys t) ∧ keys (table_inc t k) ≡ₚ (c_str k :: keys t)
      ∧ size (table_inc t k) = size t + 1))
  ∧ wrap64 (sum_counts (entries (table_inc t k))) =
    wrap64 (sum_counts (entries t) + 1).
Proof.
  intros Hwf Hfit Hsz.
  destruct (table_grow_spec t Hwf Hfit Hsz)
    as (Hwf1 & Hmod & Hload & Hbc & Hs & Hperm & _).
  pose proof (wf_size_nonneg _ Hwf1) as H0.
  unfold table_inc, keys.
  destruct (table_put_cases (table_grow t) k Hwf1)
    as [(A & e & B & H1 & H2 & Hk & Hs')|(A & B & H1 & H2 & Hno & Hs')];
    rewrite H2, Hs', Hs, <- Hperm, H1.
  - split.
    + left. split; [|split; [|done]].
      * assert (e ∈ A ++ e :: B) as He.
        { apply elem_of_mid. }
        apply strcmp_eq_spec in Hk.
        rewrite <- Hk, (wf_cstr _ Hwf1 e) by (by rewrite H1).
        by apply list_elem_of_fmap_2.
      * by rewrite !fmap_app.
    + rewrite !sum_counts_app. simpl.
      rewrite <- (wrap64_add_r _ (wrap64 _ + _)), wrap64_add_l.
      rewrite wrap64_add_r. f_equal. lia.
  - split.
    + right. split; [|split].
      * rewrite <- H1. apply fresh_not_in_keys; [apply Hwf1|done].
      * rewrite !fmap_app, fmap_cons. simpl.
        by rewrite <- Permutation_middle.
      * unfold wrap64. rewrite Z.mod_small by lia. done.
    + rewrite !sum_counts_app. simpl. f_equal. lia.
Qed.

Lemma chain_count_range (l : list Entry) k :
  (∀ e, e ∈ l → 0 ≤ count e < 2 ^ 64) → 0 ≤ chain_count l k < 2 ^ 64.
Proof.
  induction l as [|x l IH]; intros H; simpl; [lia|].
  destruct (strcmp_eq (key x) k).
  - apply H, elem_of_cons. by left.
  - apply IH. intros e He. apply H, elem_of_cons. by right.
Qed.

Lemma get_count_range t k : table_wf t → 0 ≤ get_count t k < 2 ^ 64.
Proof.
  intros Hwf. rewrite get_count_entries by done.
  apply chain_count_range, Hwf.
Qed.

Lemma table_inc_ext t a b : c_str a = c_str b → table_inc t a = table_inc t b.
Proof.
  intros H. unfold table_inc, table_put, xstrdup.
  by rewrite (bucket_of_ext _ a b), (chain_inc_ext _ a b), H.
Qed.

(** ** The fresh table *)

Lemma table_init_wf n : 0 < n → table_wf (table_init n).
Proof.
  intros Hn. unfold table_init.
  split; unfold entries; simpl; rewrite ?concat_replicate_nil; try done.
  - by rewrite length_replicate.
  - apply placed_replicate.
  - constructor.
  - intros e He. by apply elem_of_nil in He.
  - intros e He. by apply elem_of_nil in He.
Qed.

Lemma table_init_wf_initial : table_wf (table_init INITIAL_BUCKETS).
Proof. by apply table_init_wf. Qed.

Lemma table_init_fits : table_fits (table_init INITIAL_BUCKETS).
Proof.
  unfold table_fits, table_init, INITIAL_BUCKETS. simpl.
  split_and!; [reflexivity|lia|lia].
Qed.

Create HintDb table.
#[local] Hint Resolve table_init_wf_initial table_init_fits : table.

Lemma table_init_keys n : keys (table_init n) = [].
Proof. unfold keys, entries, table_init. simpl. by rewrite concat_replicate_nil. Qed.

Lemma table_init_get_count n k : get_count (table_init n) k = 0.
Proof.
  unfold get_count, table_init. simpl.
  destruct (replicate (Z.to_nat n) (@nil Entry) !! bucket_of n k) as [c|] eqn:E.
  - rewrite (list_lookup_total_correct _ _ _ E).
    apply lookup_replicate in E as [-> _]. done.
  - by rewrite list_lookup_total_alt, E.
Qed.

(** ** A run of increments *)

Lemma remove_dups_length_le (l k : list (list ascii)) :
  (∀ x, x ∈ l → x ∈ k) → (length (remove_dups l) ≤ length (remove_dups k))%nat.
Proof.
  intros H. apply submseteq_length, NoDup_submseteq.
  - apply NoDup_remove_dups.
  - intros x. rewrite !elem_of_remove_dups. apply H.
Qed.

Lemma nodup_length_le (l k : list (list ascii)) :
  NoDup l → (∀ x, x ∈ l → x ∈ k) → (length l ≤ length (remove_dups k))%nat.
Proof.
  intros Hnd H. apply submseteq_length, NoDup_submseteq; [done|].
  intros x. rewrite elem_of_remove_dups. apply H.
Qed.

Lemma foldl_table_inc vs : ∀ t,
  table_wf t → table_fits t →
  Z.of_nat (length (remove_dups (keys t ++ (c_str <$> vs)))) < 2 ^ 60 →
  table_wf (foldl table_inc t vs)
  ∧ table_fits (foldl table_inc t vs)
  ∧ (∀ x, x ∈ keys (foldl table_inc t vs) ↔ x ∈ keys t ∨ x ∈ c_str <$> vs)
  ∧ wrap64 (sum_counts (entries (foldl table_inc t vs))) =
    wrap64 (sum_counts (entries t) + Z.of_nat (length vs))
  ∧ (∀ k, get_count (foldl table_inc t vs) k =
          wrap64 (get_count t k + Z.of_nat (occurrences k vs))).
Proof.
  induction vs as [|v vs IH]; intros t Hwf Hfit Hb.
  - simpl. split_and!; try done.
    + intros x. rewrite elem_of_nil. tauto.
    + f_equal. lia.
    + intros k. pose proof (get_count_range t k Hwf).
      unfold wrap64. rewrite Z.mod_small; lia.
  - assert (size t < 2 ^ 60) as Hsz.
    { rewrite (wf_size t Hwf).
      assert (length (entries t) = length (keys t)) as ->
        by (unfold keys; by rewrite length_fmap).
      pose proof (nodup_length_le (keys t) (keys t ++ (c_str <$> v :: vs))
                    (wf_nodup t Hwf)) as Hle.
      specialize (Hle (λ x Hx, proj2 (elem_of_app _ _ x) (or_introl Hx))).
      lia. }
    destruct (table_inc_wf t v Hwf Hfit Hsz) as [Hwf1 Hfit1].
    destruct (table_inc_keys t v Hwf Hfit Hsz) as [Hkeys Hsum].
    assert (∀ x, x ∈ keys (table_inc t v) ↔ x = c_str v ∨ x ∈ keys t) as Hk1.
    { intros x. destruct Hkeys as [(Hin & Hp & _)|(Hout & Hp & _)]; rewrite Hp.
      - split; [auto|]. intros [->|?]; done.
      - by rewrite elem_of_cons. }
    simpl. destruct (IH (table_inc t v) Hwf1 Hfit1) as (H1 & H2 & H3 & H4 & H5).
    { eapply Z.le_lt_trans; [|exact Hb]. apply inj_le.
      apply remove_dups_length_le. intros x.
      rewrite !elem_of_app, ?fmap_cons, elem_of_cons, Hk1. tauto. }
    split_and!; try done.
    + intros x. rewrite H3, Hk1, ?fmap_cons, elem_of_cons. tauto.
    + rewrite H4. rewrite <- wrap64_add_l, Hsum, wrap64_add_l.
      f_equal. lia.
    + intros k. rewrite H5, table_inc_get_count by done.
      destruct (strcmp_eq k v).
      * rewrite wrap64_add_l. f_equal. lia.
      * f_equal.
Qed.

Lemma length_remove_dups_le (l : list (list ascii)) :
  (length (remove_dups l) ≤ length l)%nat.
Proof.
  induction l as [|x l IH]; simpl; [done|]. case_decide; simpl; lia.
Qed.

Lemma foldl_table_inc_init ks :
  Z.of_nat (distinct ks) < 2 ^ 60 →
  table_wf (foldl table_inc (table_init INITIAL_BUCKETS) ks)
  ∧ table_fits (foldl table_inc (table_init INITIAL_BUCKETS) ks)
  ∧ (∀ x, x ∈ keys (foldl table_inc (table_init INITIAL_BUCKETS) ks)
          ↔ x ∈ c_str <$> ks)
  ∧ wrap64 (sum_counts (entries (foldl table_inc (table_init INITIAL_BUCKETS) ks))) =
    wrap64 (Z.of_nat (length ks))
  ∧ (∀ k, get_count (foldl table_inc (table_init INITIAL_BUCKETS) ks) k =
          wrap64 (Z.of_nat (occurrences k ks))).
Proof.
  intros Hb.
  destruct (foldl_table_inc ks (table_init INITIAL_BUCKETS))
    as (H1 & H2 & H3 & H4 & H5);
    [auto with table | auto with table | by rewrite table_init_keys |].
  split; [exact H1|]. split; [exact H2|]. split; [|split].
  - intros x. rewrite H3, table_init_keys, elem_of_nil. tauto.
  - rewrite H4.
    assert (entries (table_init INITIAL_BUCKETS) = []) as ->
      by apply concat_replicate_nil.
    reflexivity.
  - intros k. by rewrite H5, table_init_get_count.
Qed.

Lemma size_distinct ks :
  Z.of_nat (distinct ks) < 2 ^ 60 →
  size (foldl table_inc (table_init INITIAL_BUCKETS) ks) = Z.of_nat (distinct ks).
Proof.
  intros Hb. destruct (foldl_table_inc_init ks Hb) as (Hwf & _ & Hk & _).
  rewrite (wf_size _ Hwf). f_equal. unfold distinct.
  transitivity (length (keys (foldl table_inc (table_init INITIAL_BUCKETS) ks))).
  { unfold keys. by rewrite length_fmap. }
  apply Permutation_length, NoDup_Permutation.
  - apply Hwf.
  - apply NoDup_remove_dups.
  - intros x. by rewrite elem_of_remove_dups, Hk.
Qed.

(** The claim C2 as it is written fails: after 3072 distinct values the
    table has 3072 entries in 4096 buckets, and 3072 * 4 = 4096 * 3. *)
Lemma load_factor_not_strict :
  ¬ (size (foldl table_inc (table_init INITIAL_BUCKETS) (distinct_keys 3072)) * 4
     < bucket_count (foldl table_inc (table_init INITIAL_BUCKETS) (distinct_keys 3072)) * 3).
Proof.
  apply Z.ltb_nlt. vm_compute. reflexivity.
Qed.

(** C2, amended. From the table of 4096 buckets, after every run of
    increments with fewer than [2^60] distinct values, [size * 4] is at
    most [bucket_count * 3]; the inequality is strict after the growth
    check that opens the next increment, before the entry is linked. *)
Theorem load_factor_bound ks :
  Z.of_nat (distinct ks) < 2 ^ 60 →
  size (foldl table_inc (table_init INITIAL_BUCKETS) ks) * 4
  ≤ bucket_count (foldl table_inc (table_init INITIAL_BUCKETS) ks) * 3
  ∧ size (table_grow (foldl table_inc (table_init INITIAL_BUCKETS) ks)) * 4
    < bucket_count (table_grow (foldl table_inc (table_init INITIAL_BUCKETS) ks)) * 3.
Proof.
  intros Hb. destruct (foldl_table_inc_init ks Hb) as (Hwf & Hfit & _).
  split; [apply Hfit|].
  apply table_grow_spec; [done..|].
  rewrite size_distinct; done.
Qed.

Lemma load_factor_bound_witness :
  size (foldl table_inc (table_init INITIAL_BUCKETS) (distinct_keys 5)) * 4
  ≤ bucket_count (foldl table_inc (table_init INITIAL_BUCKETS) (distinct_keys 5)) * 3.
Proof.
  apply (load_factor_bound (distinct_keys 5)). by vm_compute.
Defined.

Lemma get_count_absent t v :
  table_wf t → c_str v ∉ keys t → get_count t v = 0.
Proof.
  intros Hwf Hout. rewrite get_count_entries by done.
  apply chain_count_absent. apply fresh_not_in_keys; [apply Hwf|done].
Qed.

Lemma strcmp_eq_refl a : strcmp_eq a a = true.
Proof. by apply strcmp_eq_spec. Qed.

Lemma occurrences_replicate n v : occurrences v (replicate n v) = n.
Proof.
  induction n as [|n IH]; simpl; [done|]. by rewrite strcmp_eq_refl, IH.
Qed.

Lemma replicate_bound t v n :
  table_wf t → size t + 1 < 2 ^ 60 →
  Z.of_nat (length (remove_dups (keys t ++ (c_str <$> replicate n v)))) < 2 ^ 60.
Proof.
  intros Hwf Hsz. eapply Z.le_lt_trans; [|exact Hsz].
  rewrite (wf_size t Hwf).
  assert (length (entries t) = length (keys t)) as ->
    by (unfold keys; by rewrite length_fmap).
  transitivity (Z.of_nat (length (remove_dups (c_str v :: keys t)))).
  - apply inj_le, remove_dups_length_le. intros x.
    rewrite elem_of_app, elem_of_cons, fmap_replicate.
    intros [?|?%elem_of_replicate_inv]; auto.
  - pose proof (length_remove_dups_le (c_str v :: keys t)) as Hle.
    rewrite length_cons in Hle. lia.
Qed.

Lemma foldl_table_inc_same t v n :
  table_wf t → table_fits t → size t + 1 < 2 ^ 60 →
  get_count (foldl table_inc t (replicate n v)) v =
  wrap64 (get_count t v + Z.of_nat n).
Proof.
  intros Hwf Hfit Hsz.
  destruct (foldl_table_inc (replicate n v) t Hwf Hfit) as (_ & _ & _ & _ & H).
  - by apply replicate_bound.
  - by rewrite H, occurrences_replicate.
Qed.

(** The claim C4 as it is written fails at [N = 2^64]: the count is back
    at 0. *)
Lemma count_wraps :
  get_count (foldl table_inc (table_init INITIAL_BUCKETS)
               (replicate (Z.to_nat (2 ^ 64)) (str "RDV2"))) (str "RDV2")
  ≠ Z.of_nat (Z.to_nat (2 ^ 64)).
Proof.
  rewrite foldl_table_inc_same.
  - rewrite table_init_get_count, Z.add_0_l, Z2Nat.id by lia.
    unfold wrap64. rewrite Z.mod_same by lia. lia.
  - apply table_init_wf_initial.
  - apply table_init_fits.
  - unfold table_init. simpl. lia.
Qed.

Lemma occurrences_replicate_other n v v' :
  strcmp_eq v' v = false → occurrences v' (replicate n v) = 0%nat.
Proof.
  intros H. induction n as [|n IH]; simpl; [done|]. by rewrite H, IH.
Qed.

Lemma foldl_table_inc_other t v v' n :
  table_wf t → table_fits t → size t + 1 < 2 ^ 60 →
  c_str v' ≠ c_str v →
  get_count (foldl table_inc t (replicate n v)) v' = get_count t v'.
Proof.
  intros Hwf Hfit Hsz Hne.
  destruct (foldl_table_inc (replicate n v) t Hwf Hfit) as (_ & _ & _ & _ & H).
  - by apply replicate_bound.
  - rewrite H, occurrences_replicate_other by (by apply strcmp_eq_false).
    pose proof (get_count_range t v' Hwf).
    unfold wrap64. rewrite Z.mod_small; lia.
Qed.

(** C4, amended. On a well-formed table with room for one more entry
    and no entry for [v], [n] increments of [v] leave the count of [v] at
    [n] modulo [2^64], which is [n] for [n] below [2^64], and leave the
    count of every other string as it was. From the fresh table, after any
    run of increments, no two entries have the same key, the keys are the
    strings incremented, and the count of each string is the number of its
    own increments modulo [2^64]. *)
Theorem increment_counts :
  (∀ t v n,
     table_wf t → table_fits t → size t + 1 < 2 ^ 60 → c_str v ∉ keys t →
     get_count (foldl table_inc t (replicate n v)) v = wrap64 (Z.of_nat n)
     ∧ (Z.of_nat n < 2 ^ 64 →
        get_count (foldl table_inc t (replicate n v)) v = Z.of_nat n)
     ∧ (∀ v', c_str v' ≠ c_str v →
              get_count (foldl table_inc t (replicate n v)) v' = get_count t v'))
  ∧ (∀ ks,
       Z.of_nat (distinct ks) < 2 ^ 60 →
       NoDup (keys (foldl table_inc (table_init INITIAL_BUCKETS) ks))
       ∧ (∀ x, x ∈ keys (foldl table_inc (table_init INITIAL_BUCKETS) ks)
               ↔ x ∈ c_str <$> ks)
       ∧ (∀ v, get_count (foldl table_inc (table_init INITIAL_BUCKETS) ks) v =
               wrap64 (Z.of_nat (occurrences v ks)))).
Proof.
  split.
  - intros t v n Hwf Hfit Hsz Hout.
    assert (get_count (foldl table_inc t (replicate n v)) v = wrap64 (Z.of_nat n))
      as Hn.
    { rewrite foldl_table_inc_same by done.
      by rewrite get_count_absent. }
    split; [done|]. split.
    + intros Hlt. rewrite Hn. unfold wrap64. rewrite Z.mod_small; lia.
    + intros v' Hne. by apply foldl_table_inc_other.
  - intros ks Hb.
    destruct (foldl_table_inc_init ks Hb) as (Hwf & _ & Hk & _ & Hget).
    split; [apply Hwf|done].
Qed.

Lemma increment_counts_witness :
  get_count (foldl table_inc (table_init INITIAL_BUCKETS)
               (replicate 3 (str "RDV2"))) (str "RDV2") = 3.
Proof.
  destruct increment_counts as [H _].
  destruct (H (table_init INITIAL_BUCKETS) (str "RDV2") 3%nat) as (_ & Hn & _).
  - apply table_init_wf. reflexivity.
  - apply table_init_fits.
  - reflexivity.
  - rewrite table_init_keys. apply not_elem_of_nil.
  - apply Hn. reflexivity.
Defined.

Lemma table_rehash_preserves_witness :
  entries (table_rehash small_table) ≡ₚ entries small_table
  ∧ size (table_rehash small_table) = size small_table
  ∧ bucket_count (table_rehash small_table) = bucket_count small_table * 2
  ∧ length (buckets (table_rehash small_table))
    = Z.to_nat (bucket_count small_table * 2)
  ∧ (∀ e, e ∈ entries small_table →
          e ∈ buckets (table_rehash small_table)
              !!! bucket_of (bucket_count small_table * 2) (key e))
  ∧ (table_wf small_table →
     ∀ k, get_count (table_rehash small_table) k = get_count small_table k).
Proof.
  apply (table_rehash_preserves small_table); reflexivity.
Defined.

(** ** The scan and the table *)

Lemma agrees_initial : agrees initial_state.
Proof. split; reflexivity. Qed.

Lemma agrees_emit st val : agrees st → agrees (emit st val).
Proof.
  intros [Ht Hm]. unfold emit. split; simpl.
  - rewrite foldl_snoc, <- Ht. apply table_inc_ext. by rewrite c_str_idem.
  - rewrite Hm, wrap64_add_l, length_app. simpl. f_equal. lia.
Qed.

Lemma process_loop_agrees n : ∀ fp st r st',
  process_loop n fp st = Some (Returns r st') → agrees st → agrees st'.
Proof.
  induction n as [|n IH]; intros fp st r st' H Hst; [done|].
  simpl in H. revert r st' H.
  apply (process_body_rel
           (λ o _, ∀ r st', o = Some (Returns r st') → agrees st')
           (process_loop n) (process_loop n)).
  - by intros r0 r st' [= _ <-].
  - done.
  - intros fp' st1 _ [->|[v ->]] r st' H;
      eauto using agrees_emit.
Qed.

(** C10. After a scan of any stream from the fresh table and the
    counter 0 that returns 1, with fewer than [2^60] distinct values
    emitted: the sum of the counts of the entries is the counter modulo
    [2^64], the counter is the number of values emitted modulo [2^64],
    [size] is the number of distinct values emitted, and the table is the
    fresh table after one call of [table_inc] for each value emitted, in
    the order of emission. *)
Theorem scan_counts fp st :
  process_file fp initial_state = Some (Returns 1 st) →
  Z.of_nat (distinct (emitted st)) < 2 ^ 60 →
  wrap64 (sum_counts (entries (table st))) = models_seen st
  ∧ models_seen st = wrap64 (Z.of_nat (length (emitted st)))
  ∧ size (table st) = Z.of_nat (distinct (emitted st))
  ∧ table st = foldl table_inc (table_init INITIAL_BUCKETS) (emitted st).
Proof.
  intros Hrun Hb.
  destruct (process_loop_agrees _ _ _ _ _ Hrun agrees_initial) as [Ht Hm].
  destruct (foldl_table_inc_init (emitted st) Hb) as (_ & _ & _ & Hsum & _).
  split_and!; [|done| |done].
  - by rewrite Ht, Hsum, Hm.
  - rewrite Ht. by apply size_distinct.
Qed.

Lemma scan_counts_witness :
  wrap64 (sum_counts (entries (table (final_state test_input_1)))) = 3
  ∧ size (table (final_state test_input_1)) = 2.
Proof.
  destruct (scan_counts test_input_1 (final_state test_input_1))
    as (H1 & H2 & H3 & _).
  - vm_compute. reflexivity.
  - vm_compute. reflexivity.
  - split.
    + rewrite H1. vm_compute. reflexivity.
    + rewrite H3. vm_compute. reflexivity.
Defined.

(** * Further properties *)

(** ** The table *)

Lemma wrap64_range z : 0 ≤ wrap64 z < 2 ^ 64.
Proof. unfold wrap64. apply Z.mod_pos_bound. lia. Qed.

Lemma hash_loop_range s : ∀ h, 0 ≤ h < 2 ^ 64 → 0 ≤ hash_loop h s < 2 ^ 64.
Proof.
  induction s as [|c s IH]; intros h Hh; simpl; [done|].
  destruct (is_char c NUL); [done|]. apply IH, wrap64_range.
Qed.

(** X1. The hash of every buffer is in the range of [uint64_t], the index
    [table_inc], [table_rehash] and [get_count] compute from it is inside
    an array of [n] buckets for every [n] above 0, and two buffers that
    hold the same C string get the same hash and the same index. *)
Theorem bucket_index_in_bounds n a b :
  0 < n →
  0 ≤ hash_str a < 2 ^ 64
  ∧ (bucket_of n a < Z.to_nat n)%nat
  ∧ (c_str a = c_str b → hash_str a = hash_str b ∧ bucket_of n a = bucket_of n b).
Proof.
  intros Hn. split_and!.
  - apply hash_loop_range. lia.
  - apply hash_loop_range. lia.
  - by apply bucket_of_lt.
  - intros H. split; [by apply hash_str_ext|by apply bucket_of_ext].
Qed.

Lemma bucket_index_in_bounds_witness :
  (bucket_of 4096 (str "RDV2") < Z.to_nat 4096)%nat.
Proof.
  destruct (bucket_index_in_bounds 4096 (str "RDV2") (str "RDV2")) as (_ & H & _).
  - reflexivity.
  - exact H.
Defined.

(** X2. [table_inc] keeps the invariant of the table: on a table that
    satisfies [table_wf] and [table_fits] with fewer than [2^60] entries
    the table it leaves satisfies both; so does the table after any run
    of increments from the fresh table with fewer than [2^60] distinct
    values. *)
Theorem table_inc_keeps_invariant :
  (∀ t k, table_wf t → table_fits t → size t < 2 ^ 60 →
          table_wf (table_inc t k) ∧ table_fits (table_inc t k))
  ∧ (∀ ks, Z.of_nat (distinct ks) < 2 ^ 60 →
           table_wf (foldl table_inc (table_init INITIAL_BUCKETS) ks)
           ∧ table_fits (foldl table_inc (table_init INITIAL_BUCKETS) ks)).
Proof.
  split.
  - intros t k. apply table_inc_wf.
  - intros ks Hb. destruct (foldl_table_inc_init ks Hb) as (H1 & H2 & _).
    done.
Qed.

Lemma table_inc_keeps_invariant_witness :
  table_wf (table_inc (table_init INITIAL_BUCKETS) (str "RDV2"))
  ∧ table_fits (table_inc (table_init INITIAL_BUCKETS) (str "RDV2")).
Proof.
  destruct table_inc_keeps_invariant as [H _].
  apply (H (table_init INITIAL_BUCKETS) (str "RDV2")).
  - apply table_init_wf. reflexivity.
  - apply table_init_fits.
  - reflexivity.
Defined.

Lemma get_count_stored t e :
  table_wf t → e ∈ entries t → get_count t (key e) = count e.
Proof.
  intros Hwf He. rewrite get_count_entries by done.
  assert (strcmp_eq (key e) (key e) = true) as Hk by apply strcmp_eq_refl.
  apply chain_count_unique; [done..|].
  intros e' He' Hk'.
  by apply (match_unique (entries t) (key e)); [apply Hwf|apply Hwf|..].
Qed.

(** X3. In a well-formed table [get_count] returns 0 for a string that
    is the key of no entry, and the stored count for the key of an
    entry; what it returns is in the range of [uint64_t] and depends on
    the C string of its argument only. *)
Theorem get_count_lookup t :
  table_wf t →
  (∀ k, c_str k ∉ keys t → get_count t k = 0)
  ∧ (∀ e, e ∈ entries t → get_count t (key e) = count e)
  ∧ (∀ k, 0 ≤ get_count t k < 2 ^ 64)
  ∧ (∀ a b, c_str a = c_str b → get_count t a = get_count t b).
Proof.
  intros Hwf. split_and!.
  - intros k. by apply get_count_absent.
  - intros e. by apply get_count_stored.
  - intros k. by apply get_count_range.
  - intros a b H. unfold get_count.
    by rewrite (bucket_of_ext _ a b), (chain_count_ext _ a b).
Qed.

Lemma get_count_lookup_witness :
  get_count (table_init INITIAL_BUCKETS) (str "RDV2") = 0.
Proof.
  destruct (get_count_lookup (table_init INITIAL_BUCKETS)) as (H & _).
  - apply table_init_wf. reflexivity.
  - apply H. rewrite table_init_keys. apply not_elem_of_nil.
Defined.

(** X4. One increment seen through [get_count]: the count of the string
    incremented goes up by one modulo [2^64], from 0 when it had no
    entry, and the count of every other string is what it was. *)
Theorem table_inc_lookup t k k' :
  table_wf t → table_fits t → size t < 2 ^ 60 →
  get_count (table_inc t k) k' =
  if strcmp_eq k' k then wrap64 (get_count t k' + 1) else get_count t k'.
Proof. apply table_inc_get_count. Qed.

Lemma table_inc_lookup_witness :
  get_count (table_inc small_table (str "ABC")) (str "ABC") =
  wrap64 (get_count small_table (str "ABC") + 1).
Proof.
  apply (table_inc_lookup small_table (str "ABC") (str "ABC")).
  - apply (table_inc_wf _ (str "ABC")); [|by vm_compute|reflexivity].
    apply (table_inc_wf _ (str "RDV2")); [|by vm_compute|reflexivity].
    apply table_init_wf. reflexivity.
  - by vm_compute.
  - reflexivity.
Defined.

Lemma table_grow_bucket_count t :
  table_wf t → table_fits t → size t < 2 ^ 60 →
  bucket_count (table_grow t) =
  if bucket_count t * 3 <=? size t * 4 then bucket_count t * 2 else bucket_count t.
Proof.
  intros Hwf (Hmod & Hload & Hbc) Hsz.
  pose proof (wf_size_nonneg t Hwf) as H0. pose proof (wf_pos t Hwf) as Hpos.
  unfold table_grow, LOAD_FACTOR_NUM, LOAD_FACTOR_DEN, wrap64.
  rewrite !Z.mod_small by lia.
  destruct (bucket_count t * 3 <=? size t * 4); [|done].
  apply table_rehash_count; lia.
Qed.

(** X5. One increment seen through the fields: [size] goes up by one
    when the string had no entry and stays when it had one, and
    [bucket_count] is doubled when [size * 4] had reached
    [bucket_count * 3] at the call and stays otherwise. *)
Theorem table_inc_size t k :
  table_wf t → table_fits t → size t < 2 ^ 60 →
  size (table_inc t k) =
    (if bool_decide (c_str k ∈ keys t) then size t else size t + 1)
  ∧ bucket_count (table_inc t k) =
    (if bucket_count t * 3 <=? size t * 4
     then bucket_count t * 2 else bucket_count t).
Proof.
  intros Hwf Hfit Hsz. split.
  - destruct (table_inc_keys t k Hwf Hfit Hsz)
      as [[(Hin & _ & Hs)|(Hout & _ & Hs)] _]; rewrite Hs.
    + by rewrite bool_decide_eq_true_2.
    + by rewrite bool_decide_eq_false_2.
  - unfold table_inc. rewrite table_put_bucket_count.
    by apply table_grow_bucket_count.
Qed.

Lemma table_inc_size_witness :
  size (table_inc (table_init INITIAL_BUCKETS) (str "RDV2")) = 1
  ∧ bucket_count (table_inc (table_init INITIAL_BUCKETS) (str "RDV2")) = 4096.
Proof.
  apply (table_inc_size (table_init INITIAL_BUCKETS) (str "RDV2")).
  - apply table_init_wf. reflexivity.
  - apply table_init_fits.
  - reflexivity.
Defined.

(** ** The scan *)

(** X6. The loop of [process_file] ends on every stream: it takes at
    most one turn for each byte and one more, and a larger number of
    turns allowed gives the same result. *)
Theorem process_file_terminates n fp st :
  (length fp < n)%nat →
  process_loop n fp st = process_file fp st
  ∧ is_Some (process_file fp st).
Proof.
  intros Hn. split.
  - apply process_loop_fuel; [done|lia].
  - apply process_file_total.
Qed.

Lemma process_file_terminates_witness :
  process_loop 100 test_input_3 initial_state =
  process_file test_input_3 initial_state.
Proof.
  apply (process_file_terminates 100 test_input_3 initial_state).
  vm_compute. lia.
Defined.

(** X7. A stream without a double quote is read to its end: the scan
    returns 1 and leaves the table, the counter and the values emitted as
    they were. *)
Theorem process_file_no_quote fp st :
  Forall (λ c, c ≠ dquote) fp →
  process_file fp st = Some (Returns 1 st).
Proof.
  induction 1 as [|c fp Hc _ IH].
  - by rewrite process_file_unfold.
  - rewrite process_file_other; [done|]. by apply is_char_neq.
Qed.

Lemma process_file_no_quote_witness :
  process_file (str "[1, 2, {}]") initial_state = Some (Returns 1 initial_state).
Proof.
  apply (process_file_no_quote (str "[1, 2, {}]")).
  repeat constructor; discriminate.
Defined.

Lemma c_str_length s : (length (c_str s) ≤ length s)%nat.
Proof.
  induction s as [|c s IH]; simpl; [done|].
  destruct (is_char c NUL); simpl; lia.
Qed.

Lemma read_json_string_cost fp : ∀ buf fp',
  read_json_string fp = Some (buf, fp') →
  (length buf + 1 + length fp' ≤ length fp)%nat.
Proof.
  remember (length fp) as n eqn:Hn. revert fp Hn.
  induction (lt_wf n) as [n _ IH]; intros fp -> buf fp' H.
  destruct fp as [|c fp1]; [done|]. simpl in H.
  destruct (is_char c dquote).
  { inversion H; subst. simpl. lia. }
  destruct (is_char c backslash).
  - destruct fp1 as [|esc fp2]; [done|].
    destruct (is_char esc "u").
    + destruct fp2 as [|h1 [|h2 [|h3 [|h4 fp3]]]]; try done.
      destruct (isxdigit h1 && isxdigit h2 && isxdigit h3 && isxdigit h4); [|done].
      apply prepend_inv in H as (b & H & ->).
      eapply (IH (length fp3)) in H; [|simpl; lia|done]. simpl. lia.
    + apply prepend_inv in H as (b & H & ->).
      eapply (IH (length fp2)) in H; [|simpl; lia|done]. simpl. lia.
  - apply prepend_inv in H as (b & H & ->).
    eapply (IH (length fp1)) in H; [|simpl; lia|done]. simpl. lia.
Qed.

Lemma model_key_length k : strcmp_eq k KEY_MODEL = true → (5 ≤ length k)%nat.
Proof.
  intros H%strcmp_eq_spec. pose proof (c_str_length k) as Hle.
  rewrite H in Hle. exact Hle.
Qed.

(** A turn of the loop goes on with the state it was given and a shorter
    stream, or with that state after one value is emitted and a stream
    shorter by ten bytes at least. *)
Lemma process_body_cost (R : option outcome → option outcome → Prop)
    (f g : stream → scan_state → option outcome) fp st :
  (∀ r, R (Some (Returns r st)) (Some (Returns r st))) →
  R (Some Undefined) (Some Undefined) →
  (∀ fp' st',
     (st' = st ∧ (length fp' < length fp)%nat)
     ∨ (∃ v, st' = emit st v ∧ (length fp' + 10 ≤ length fp)%nat) →
     R (f fp' st') (g fp' st')) →
  R (process_body f fp st) (process_body g fp st).
Proof.
  intros Hret Hundef Hcont. unfold process_body.
  destruct fp as [|c fp0]; simpl; [done|].
  destruct (negb (is_char c dquote)); [apply Hcont; left; simpl; auto with lia|].
  destruct (read_json_string fp0) as [[k fp1]|] eqn:E1; [|done].
  apply read_json_string_cost in E1.
  destruct (skip_ws fp1) as [c1 fp2] eqn:E2.
  destruct (negb (bool_decide (c1 = Some ":"%char))) eqn:Ec.
  { apply skip_ws_length in E2. apply Hcont; left; simpl; auto with lia. }
  apply negb_false_iff, bool_decide_eq_true in Ec as ->.
  apply skip_ws_length_some in E2.
  destruct (skip_ws fp2) as [[cv|] fp3] eqn:E3; [|done].
  apply skip_ws_length_some in E3.
  destruct (strcmp_eq k KEY_MODEL && is_char cv dquote) eqn:Ek.
  - apply andb_true_iff in Ek as [Ek%model_key_length _].
    destruct (read_json_string fp3) as [[v fp4]|] eqn:E4; [|done].
    apply read_json_string_cost in E4.
    apply Hcont. right. exists v. split; [done|]. simpl. lia.
  - destruct (consume_json_value fp3 (Some cv)) as [fp4| |] eqn:E4; [|done..].
    apply consume_json_value_length in E4.
    apply Hcont. left. split; [done|]. simpl. lia.
Qed.

Lemma process_loop_trace n : ∀ fp st r st',
  process_loop n fp st = Some (Returns r st') →
  0 ≤ models_seen st < 2 ^ 64 →
  ∃ vs, emitted st' = emitted st ++ (c_str <$> vs)
        ∧ table st' = foldl table_inc (table st) vs
        ∧ models_seen st' = wrap64 (models_seen st + Z.of_nat (length vs))
        ∧ (10 * length vs ≤ length fp)%nat.
Proof.
  induction n as [|n IH]; intros fp st r st' H Hms; [done|].
  simpl in H. revert r st' H.
  apply (process_body_cost
           (λ o _, ∀ r st', o = Some (Returns r st') →
              ∃ vs, emitted st' = emitted st ++ (c_str <$> vs)
                    ∧ table st' = foldl table_inc (table st) vs
                    ∧ models_seen st' = wrap64 (models_seen st + Z.of_nat (length vs))
                    ∧ (10 * length vs ≤ length fp)%nat)
           (process_loop n) (process_loop n)).
  - intros r0 r st' [= _ <-]. exists []. simpl.
    rewrite app_nil_r, Z.add_0_r. unfold wrap64.
    rewrite Z.mod_small by done. split_and!; (done || lia).
  - done.
  - intros fp' st1 [[-> Hlen]|(v & -> & Hlen)] r st' H.
    + destruct (IH _ _ _ _ H Hms) as (vs & H1 & H2 & H3 & H4).
      exists vs. split_and!; try done. lia.
    + destruct (IH _ _ _ _ H) as (vs & H1 & H2 & H3 & H4).
      { simpl. apply wrap64_range. }
      exists (v :: vs). simpl in *. split_and!.
      * by rewrite H1, <- app_assoc.
      * done.
      * rewrite H3, wrap64_add_l. f_equal. lia.
      * lia.
Qed.

(** X8. Whatever [process_file] returns, 1 or 0, from whatever state: the
    values emitted are appended to those emitted before, the table is the
    one it was given after one call of [table_inc] for each new value in
    the order of emission, the counter has gone up by their number modulo
    [2^64], and there is one new value for every ten bytes of the stream
    at most. *)
Theorem process_file_trace fp st r st' :
  process_file fp st = Some (Returns r st') →
  0 ≤ models_seen st < 2 ^ 64 →
  ∃ vs, emitted st' = emitted st ++ (c_str <$> vs)
        ∧ table st' = foldl table_inc (table st) vs
        ∧ models_seen st' = wrap64 (models_seen st + Z.of_nat (length vs))
        ∧ (10 * length vs ≤ length fp)%nat.
Proof. apply process_loop_trace. Qed.

Lemma process_file_trace_witness :
  ∃ vs, emitted (final_state test_input_3) = emitted initial_state ++ (c_str <$> vs)
        ∧ table (final_state test_input_3) = foldl table_inc (table initial_state) vs
        ∧ models_seen (final_state test_input_3) =
          wrap64 (models_seen initial_state + Z.of_nat (length vs))
        ∧ (10 * length vs ≤ length test_input_3)%nat.
Proof.
  apply (process_file_trace test_input_3 initial_state 1).
  - vm_compute. reflexivity.
  - simpl. lia.
Defined.

Lemma occurrences_le_length v vs : (occurrences v vs ≤ length vs)%nat.
Proof.
  induction vs as [|x vs IH]; simpl; [done|].
  destruct (strcmp_eq v x); lia.
Qed.

Lemma scan_facts fp r st :
  process_file fp initial_state = Some (Returns r st) →
  Z.of_nat (length fp) < 2 ^ 60 →
  table_wf (table st)
  ∧ models_seen st = Z.of_nat (length (emitted st))
  ∧ size (table st) = Z.of_nat (distinct (emitted st))
  ∧ (∀ v, get_count (table st) v = Z.of_nat (occurrences v (emitted st)))
  ∧ (∀ x, x ∈ keys (table st) ↔ x ∈ emitted st).
Proof.
  intros Hrun Hlen.
  destruct (process_loop_agrees _ _ _ _ _ Hrun agrees_initial) as [Ht Hm].
  destruct (process_loop_trace _ _ _ _ _ Hrun) as (vs & Hvs & _ & _ & Hcost).
  { simpl. lia. }
  simpl in Hvs.
  assert (length (emitted st) ≤ length fp)%nat as Hle.
  { rewrite Hvs, length_fmap. lia. }
  assert (distinct (emitted st) ≤ length (emitted st))%nat as Hd.
  { unfold distinct.
    pose proof (length_remove_dups_le (c_str <$> emitted st)) as H.
    by rewrite length_fmap in H. }
  assert (Z.of_nat (distinct (emitted st)) < 2 ^ 60) as Hb by lia.
  destruct (foldl_table_inc_init (emitted st) Hb) as (Hwf & _ & Hk & _ & Hget).
  rewrite Ht. split_and!.
  - done.
  - rewrite Hm. unfold wrap64. rewrite Z.mod_small; lia.
  - by apply size_distinct.
  - intros v. rewrite Hget.
    pose proof (occurrences_le_length v (emitted st)).
    unfold wrap64. rewrite Z.mod_small; lia.
  - intros x. rewrite Hk.
    assert (c_str <$> emitted st = emitted st) as ->; [|done].
    rewrite Hvs, <- list_fmap_compose. apply list_fmap_ext.
    intros i y _. simpl. apply c_str_idem.
Qed.

(** X9. On a stream shorter than [2^60] bytes nothing wraps: whatever
    [process_file] returns from the fresh table and the counter 0, the
    table it leaves is well formed, the counter is the number of values
    emitted, [size] is the number of distinct values emitted, and
    [get_count] gives for every string the number of times it was
    emitted. *)
Theorem scan_exact fp r st :
  process_file fp initial_state = Some (Returns r st) →
  Z.of_nat (length fp) < 2 ^ 60 →
  table_wf (table st)
  ∧ models_seen st = Z.of_nat (length (emitted st))
  ∧ size (table st) = Z.of_nat (distinct (emitted st))
  ∧ (∀ v, get_count (table st) v = Z.of_nat (occurrences v (emitted st))).
Proof.
  intros Hrun Hlen.
  destruct (scan_facts fp r st Hrun Hlen) as (H1 & H2 & H3 & H4 & _).
  done.
Qed.

Lemma scan_exact_witness :
  get_count (table (final_state test_input_1)) (str "RDV2") = 2.
Proof.
  destruct (scan_exact test_input_1 1 (final_state test_input_1))
    as (_ & _ & _ & H).
  - vm_compute. reflexivity.
  - vm_compute. reflexivity.
  - rewrite H. vm_compute. reflexivity.
Defined.

(** ** Reading *)

(** X10. When [read_json_string] returns a buffer, what it has read is
    a run of bytes [body] and the closing quote; the buffer has no more
    bytes than [body], and the same bytes decode to the same buffer
    whatever comes after the closing quote. *)
Theorem read_json_string_consumes fp buf fp' :
  read_json_string fp = Some (buf, fp') →
  ∃ body, fp = body ++ dquote :: fp'
          ∧ (length buf ≤ length body)%nat
          ∧ ∀ rest, read_json_string (body ++ dquote :: rest) = Some (buf, rest).
Proof.
  remember (length fp) as n eqn:Hn. revert fp Hn buf fp'.
  induction (lt_wf n) as [n _ IH]; intros fp -> buf fp' H.
  destruct fp as [|c fp1]; [done|]. simpl in H.
  destruct (is_char c dquote) eqn:Hq.
  { inversion H; subst. apply is_char_eq in Hq as ->.
    exists []. split_and!; try done. }
  destruct (is_char c backslash) eqn:Hb.
  - destruct fp1 as [|esc fp2]; [done|].
    destruct (is_char esc "u") eqn:Hu.
    + destruct fp2 as [|h1 [|h2 [|h3 [|h4 fp3]]]]; try done.
      destruct (isxdigit h1 && isxdigit h2 && isxdigit h3 && isxdigit h4)
        eqn:Hx; [|done].
      apply prepend_inv in H as (b & H & ->).
      destruct (IH (length fp3) ltac:(simpl; lia) fp3 eq_refl _ _ H)
        as (body & -> & Hlen & Hrest).
      exists (c :: esc :: h1 :: h2 :: h3 :: h4 :: body).
      split_and!; [done|simpl; lia|].
      intros rest. simpl. rewrite Hq, Hb, Hu, Hx, Hrest. done.
    + apply prepend_inv in H as (b & H & ->).
      destruct (IH (length fp2) ltac:(simpl; lia) fp2 eq_refl _ _ H)
        as (body & -> & Hlen & Hrest).
      exists (c :: esc :: body).
      split_and!; [done|simpl; lia|].
      intros rest. simpl. rewrite Hq, Hb, Hu, Hrest. done.
  - apply prepend_inv in H as (b & H & ->).
    destruct (IH (length fp1) ltac:(simpl; lia) fp1 eq_refl _ _ H)
      as (body & -> & Hlen & Hrest).
    exists (c :: body).
    split_and!; [done|simpl; lia|].
    intros rest. simpl. rewrite Hq, Hb, Hrest. done.
Qed.

Lemma read_json_string_consumes_witness :
  ∃ body, json "a\nb',1" = body ++ dquote :: str ",1"
          ∧ (length (["a"; "010"; "b"]%char) ≤ length body)%nat
          ∧ ∀ rest, read_json_string (body ++ dquote :: rest) =
                    Some (["a"; "010"; "b"]%char, rest).
Proof.
  apply (read_json_string_consumes (json "a\nb',1")). reflexivity.
Defined.

(** X11. [read_json_string] undoes the escaping of quotes and
    backslashes: for every run of bytes [s], the literal made of the
    bytes of [s] with a backslash before each quote and each backslash,
    and the closing quote, decodes to [s]; a [s] without quote and
    backslash stands for itself. *)
Theorem read_json_string_unescapes s rest :
  read_json_string (json_escape s ++ dquote :: rest) = Some (s, rest)
  ∧ (Forall (λ c, c ≠ dquote ∧ c ≠ backslash) s → json_escape s = s).
Proof.
  split.
  - induction s as [|c s IH]; [done|].
    unfold json_escape in *. simpl.
    destruct (is_char c dquote) eqn:Hq.
    { apply is_char_eq in Hq as ->. simpl. by rewrite IH. }
    destruct (is_char c backslash) eqn:Hb.
    { apply is_char_eq in Hb as ->. simpl. by rewrite IH. }
    simpl. by rewrite Hq, Hb, IH.
  - induction 1 as [|c s [Hq%is_char_neq Hb%is_char_neq] _ IH]; [done|].
    unfold json_escape in *. simpl. by rewrite Hq, Hb, IH.
Qed.

Lemma read_json_string_unescapes_witness :
  json_escape (str "RDV2") = str "RDV2".
Proof.
  apply (read_json_string_unescapes (str "RDV2") []).
  repeat constructor; discriminate.
Defined.

(** X12. [skip_ws] reads the white space at the head of the stream and
    the byte after it, which it returns and which is no white space; it
    returns [EOF] when the stream holds white space only, and the stream
    is then at its end. *)
Theorem skip_ws_spec fp c fp' :
  skip_ws fp = (c, fp') →
  ∃ ws, all_space ws
        ∧ match c with
          | None => fp = ws ∧ fp' = []
          | Some x => isspace x = false ∧ fp = ws ++ x :: fp'
          end.
Proof.
  revert c fp'. induction fp as [|a fp IH]; intros c fp' H; simpl in H.
  - inversion H; subst. exists []. split; [constructor|done].
  - destruct (isspace a) eqn:Ha.
    + destruct (IH _ _ H) as (ws & Hws & Hc).
      exists (a :: ws). split; [by constructor|].
      destruct c; [destruct Hc as [? ->]|destruct Hc as [-> ->]]; done.
    + inversion H; subst. exists []. split; [constructor|done].
Qed.

Lemma skip_ws_spec_witness :
  ∃ ws, all_space ws
        ∧ isspace ":" = false ∧ str "  :1" = ws ++ ":"%char :: str "1".
Proof.
  apply (skip_ws_spec (str "  :1") (Some ":"%char) (str "1")). reflexivity.
Defined.

(** ** Strings inside a container *)

Lemma container_loop_hex depth h fp :
  0 < depth → isxdigit h = true →
  container_loop depth true false (h :: fp) = container_loop depth true false fp.
Proof.
  intros Hd [Hq Hb]%isxdigit_plain.
  by rewrite container_loop_in_string, Hb, Hq.
Qed.

(** X13. The container loop and [read_json_string] agree on where a
    string ends: when [read_json_string] decodes the bytes after an
    opening quote and leaves the stream at [rest], the container loop,
    inside a string at the same place and at a depth above 0, is outside
    the string, at the same depth, when it reaches [rest]. *)
Theorem container_loop_string s buf rest depth :
  read_json_string s = Some (buf, rest) → 0 < depth →
  container_loop depth true false s = container_loop depth false false rest.
Proof.
  intros H Hd. revert buf rest H.
  remember (length s) as n eqn:Hn. revert s Hn.
  induction (lt_wf n) as [n _ IH]; intros s -> buf rest H.
  destruct s as [|c fp1]; [done|]. simpl in H.
  rewrite container_loop_in_string by done.
  destruct (is_char c dquote) eqn:Hq.
  { inversion H; subst. apply is_char_eq in Hq as ->. done. }
  destruct (is_char c backslash) eqn:Hb.
  - destruct fp1 as [|esc fp2]; [done|].
    rewrite container_loop_escaped by done.
    destruct (is_char esc "u") eqn:Hu.
    + destruct fp2 as [|h1 [|h2 [|h3 [|h4 fp3]]]]; try done.
      destruct (isxdigit h1) eqn:H1; [|done].
      destruct (isxdigit h2) eqn:H2; [|done].
      destruct (isxdigit h3) eqn:H3; [|done].
      destruct (isxdigit h4) eqn:H4; [|done].
      simpl in H. apply prepend_inv in H as (b & H & ->).
      rewrite !container_loop_hex by done.
      by apply (IH (length fp3)) with (buf := b); [simpl; lia|..].
    + apply prepend_inv in H as (b & H & ->).
      by apply (IH (length fp2)) with (buf := b); [simpl; lia|..].
  - apply prepend_inv in H as (b & H & ->).
    by apply (IH (length fp1)) with (buf := b); [simpl; lia|..].
Qed.

Lemma container_loop_string_witness :
  container_loop 1 true false (json "a}\'b',2]") =
  container_loop 1 false false (str ",2]").
Proof.
  apply (container_loop_string (json "a}\'b',2]") ["a"; "}"; dquote; "b"]%char).
  - reflexivity.
  - reflexivity.
Defined.

(** ** The order of the report *)

Lemma code_inj c d : code c = code d → c = d.
Proof.
  unfold code. intros H%(inj Z.of_N).
  by rewrite <- (ascii_N_embedding c), <- (ascii_N_embedding d), H.
Qed.

Lemma code_nonneg c : 0 ≤ code c.
Proof. unfold code. lia. Qed.

Lemma code_NUL c : is_char c NUL = false → 0 < code c.
Proof.
  intros H%is_char_neq. pose proof (code_nonneg c).
  destruct (decide (code c = 0)) as [Hz|]; [|lia].
  exfalso. apply H. by apply code_inj.
Qed.

Lemma lexZ_opp a : ∀ b, lexZ b a = CompOpp (lexZ a b).
Proof.
  induction a as [|x a IH]; intros [|y b]; simpl; try done.
  rewrite (Z.compare_antisym x y).
  destruct (x ?= y); simpl; [apply IH|done..].
Qed.

Lemma lexZ_Eq a : ∀ b, lexZ a b = Eq ↔ a = b.
Proof.
  induction a as [|x a IH]; intros [|y b]; simpl; try done.
  destruct (Z.compare_spec x y) as [->|?|?].
  - rewrite IH. split; [by intros ->|by intros [=]].
  - split; [done|intros [=]; lia].
  - split; [done|intros [=]; lia].
Qed.

Lemma lexZ_trans a : ∀ b c,
  lexZ a b ≠ Gt → lexZ b c ≠ Gt → lexZ a c ≠ Gt.
Proof.
  induction a as [|x a IH]; intros [|y b] [|z c]; simpl; try done.
  destruct (Z.compare_spec x y) as [->|?|?]; [|intros _|done].
  - destruct (Z.compare_spec y z) as [->|?|?]; [apply IH|done..].
  - destruct (Z.compare_spec y z) as [->|?|?]; [|intros _|done].
    + by destruct (Z.compare_spec x z) as [->|?|?]; [lia|..|lia].
    + by destruct (Z.compare_spec x z) as [->|?|?]; [lia|..|lia].
Qed.

Lemma strcmp_lex a : ∀ b, strcmp a b = lexZ (codes a) (codes b).
Proof.
  unfold codes.
  induction a as [|c a IH]; intros [|d b]; simpl.
  - done.
  - by destruct (is_char d NUL).
  - by destruct (is_char c NUL).
  - destruct (is_char c d) eqn:Hcd.
    + apply is_char_eq in Hcd as <-.
      destruct (is_char c NUL); [done|]. simpl.
      by rewrite Z.compare_refl, IH.
    + apply is_char_neq in Hcd.
      destruct (is_char c NUL) eqn:Hc, (is_char d NUL) eqn:Hd; simpl.
      * apply is_char_eq in Hc, Hd. congruence.
      * apply is_char_eq in Hc as ->. apply code_NUL in Hd.
        by apply Z.compare_lt_iff.
      * apply is_char_eq in Hd as ->. apply code_NUL in Hc.
        by apply Z.compare_gt_iff.
      * destruct (Z.compare_spec (code c) (code d)) as [H|?|?]; [|done..].
        by apply code_inj in H.
Qed.

Lemma codes_inj a b : codes a = codes b → c_str a = c_str b.
Proof.
  unfold codes. generalize (c_str a) (c_str b). clear.
  induction l as [|x l IH]; intros [|y k]; simpl; try done.
  intros [= Hxy Hlk]. f_equal; [by apply code_inj|by apply IH].
Qed.

Lemma strcmp_opp a b : strcmp b a = CompOpp (strcmp a b).
Proof. rewrite !strcmp_lex. apply lexZ_opp. Qed.

Lemma strcmp_Eq a b : strcmp a b = Eq ↔ c_str a = c_str b.
Proof.
  rewrite strcmp_lex, lexZ_Eq. split; [apply codes_inj|].
  unfold codes. by intros ->.
Qed.

Lemma strcmp_trans a b c :
  strcmp a b ≠ Gt → strcmp b c ≠ Gt → strcmp a c ≠ Gt.
Proof. rewrite !strcmp_lex. apply lexZ_trans. Qed.

Lemma pair_cmp_opp a b : pair_cmp b a = CompOpp (pair_cmp a b).
Proof.
  unfold pair_cmp.
  destruct (Z.ltb_spec (pair_count a) (pair_count b)),
           (Z.ltb_spec (pair_count b) (pair_count a));
    try done; try lia.
  apply strcmp_opp.
Qed.

Lemma pair_cmp_Eq a b :
  pair_cmp a b = Eq ↔
  pair_count a = pair_count b ∧ c_str (pair_key a) = c_str (pair_key b).
Proof.
  unfold pair_cmp.
  destruct (Z.ltb_spec (pair_count a) (pair_count b)),
           (Z.ltb_spec (pair_count b) (pair_count a));
    try (split; [done|intros [? _]; lia]).
  rewrite strcmp_Eq. split; [intros ?; split; [lia|done]|by intros [_ ?]].
Qed.

#[global] Instance pair_le_trans : Transitive pair_le.
Proof.
  intros a b c. unfold pair_le, pair_cmp.
  destruct (Z.ltb_spec (pair_count a) (pair_count b)),
           (Z.ltb_spec (pair_count b) (pair_count a)),
           (Z.ltb_spec (pair_count b) (pair_count c)),
           (Z.ltb_spec (pair_count c) (pair_count b)),
           (Z.ltb_spec (pair_count a) (pair_count c)),
           (Z.ltb_spec (pair_count c) (pair_count a));
    try done; try lia.
  apply strcmp_trans.
Qed.

#[global] Instance pair_le_total : Total pair_le.
Proof.
  intros a b. unfold pair_le. rewrite (pair_cmp_opp a b).
  destruct (pair_cmp a b); simpl; auto.
Qed.

(** X14. [pair_cmp] is a comparison [qsort] can use: swapping its
    arguments swaps the sign of its result, it is transitive, and it
    returns 0 for two pairs with the same count and the same C string as
    key only. *)
Theorem pair_cmp_consistent :
  (∀ a b, pair_cmp b a = CompOpp (pair_cmp a b))
  ∧ (∀ a b c, pair_cmp a b ≠ Gt → pair_cmp b c ≠ Gt → pair_cmp a c ≠ Gt)
  ∧ (∀ a b, pair_cmp a b = Eq ↔
            pair_count a = pair_count b
            ∧ c_str (pair_key a) = c_str (pair_key b)).
Proof.
  split_and!.
  - apply pair_cmp_opp.
  - intros a b c. apply pair_le_trans.
  - apply pair_cmp_Eq.
Qed.

Lemma foldl_collect (l : list chain) : ∀ acc,
  foldl (λ pairs c, pairs ++ (pair_of <$> c)) acc l =
  acc ++ (pair_of <$> concat l).
Proof.
  induction l as [|c l IH]; intros acc; simpl.
  - by rewrite app_nil_r.
  - by rewrite IH, fmap_app, app_assoc.
Qed.

Lemma collect_pairs_entries t :
  length (buckets t) = Z.to_nat (bucket_count t) →
  collect_pairs t = pair_of <$> entries t.
Proof.
  intros Hlen. unfold collect_pairs. rewrite <- Hlen.
  rewrite (foldl_seq_lookup (λ pairs c, pairs ++ (pair_of <$> c)) (buckets t) []).
  by rewrite foldl_collect.
Qed.

Lemma pair_key_of (l : list Entry) : pair_key <$> (pair_of <$> l) = key <$> l.
Proof. rewrite <- list_fmap_compose. done. Qed.

(** X15. On a well-formed table the loop of [main] puts in [pairs] the
    key and the count of every entry, once each, bucket after bucket: it
    fills the [size] slots that were allocated, no more and no fewer, and
    no two pairs have the same key. *)
Theorem collect_pairs_fills t :
  table_wf t →
  collect_pairs t = pair_of <$> entries t
  ∧ Z.of_nat (length (collect_pairs t)) = size t
  ∧ NoDup (pair_key <$> collect_pairs t).
Proof.
  intros Hwf. rewrite (collect_pairs_entries t (wf_len t Hwf)).
  split_and!.
  - done.
  - by rewrite length_fmap, (wf_size t Hwf).
  - rewrite pair_key_of. apply Hwf.
Qed.

Lemma collect_pairs_fills_witness :
  Z.of_nat (length (collect_pairs small_table)) = size small_table.
Proof.
  destruct (collect_pairs_fills small_table) as (_ & H & _); [|exact H].
  apply (table_inc_wf _ (str "ABC")); [|by vm_compute|reflexivity].
  apply (table_inc_wf _ (str "RDV2")); [|by vm_compute|reflexivity].
  apply table_init_wf. reflexivity.
Defined.

(** Two pairs of a well-formed table that [pair_cmp] accepts in both
    orders are the same pair. *)
Lemma pair_le_antisym t a b :
  table_wf t → a ∈ pair_of <$> entries t → b ∈ pair_of <$> entries t →
  pair_le a b → pair_le b a → a = b.
Proof.
  intros Hwf (ea & -> & Ha)%list_elem_of_fmap (eb & -> & Hb)%list_elem_of_fmap.
  unfold pair_le. rewrite (pair_cmp_opp (pair_of ea) (pair_of eb)).
  destruct (pair_cmp (pair_of ea) (pair_of eb)) eqn:E; simpl; try done.
  intros _ _. apply pair_cmp_Eq in E as [_ Hk]. simpl in Hk.
  rewrite (wf_cstr t Hwf ea), (wf_cstr t Hwf eb) in Hk by done.
  by rewrite (nodup_keys_unique (entries t) ea eb (wf_nodup t Hwf)).
Qed.

Lemma pair_le_before t a b :
  table_wf t → a ∈ pair_of <$> entries t → b ∈ pair_of <$> entries t →
  a ≠ b → pair_le a b → pair_before a b.
Proof.
  intros Hwf Ha Hb Hne Hle.
  assert (pair_cmp a b ≠ Eq) as Hneq.
  { intros E. apply Hne. apply (pair_le_antisym t); try done.
    unfold pair_le. rewrite (pair_cmp_opp a b), E. done. }
  unfold pair_le, pair_before in *. unfold pair_cmp in *.
  destruct (Z.ltb_spec (pair_count a) (pair_count b)); [done|].
  destruct (Z.ltb_spec (pair_count b) (pair_count a)); [by left|].
  right. split; [lia|].
  by destruct (strcmp (pair_key a) (pair_key b)).
Qed.

Lemma StronglySorted_before t (l : list Pair) :
  table_wf t → (∀ x, x ∈ l → x ∈ pair_of <$> entries t) → NoDup l →
  StronglySorted pair_le l → StronglySorted pair_before l.
Proof.
  intros Hwf Hin Hnd Hs. induction Hs as [|x l Hs IH Hx]; [constructor|].
  pose proof (NoDup_cons_1_1 _ _ Hnd) as Hxl.
  apply NoDup_cons_1_2 in Hnd.
  constructor.
  - apply IH; [|done]. intros y Hy. apply Hin. by right.
  - rewrite Forall_forall in Hx |- *. intros y Hy.
    apply (pair_le_before t); [done| | | |by apply Hx].
    + apply Hin. by left.
    + apply Hin. by right.
    + intros ->. done.
Qed.

Lemma NoDup_pairs t : table_wf t → NoDup (pair_of <$> entries t).
Proof.
  intros Hwf. apply (NoDup_fmap_1 pair_key). rewrite pair_key_of. apply Hwf.
Qed.

(** X16. The order of the report does not depend on how [qsort] sorts:
    on the pairs of a well-formed table, every array that holds the same
    pairs in an order [pair_cmp] accepts is the same array, and in it
    every pair has a larger count than the pairs after it, or the same
    count and a key that [strcmp] puts before theirs. *)
Theorem sorted_pairs_unique t l' :
  table_wf t → qsort_result (collect_pairs t) l' →
  l' = merge_sort pair_le (collect_pairs t)
  ∧ StronglySorted pair_before l'.
Proof.
  intros Hwf [Hperm Hsorted].
  rewrite (collect_pairs_entries t (wf_len t Hwf)) in *.
  split.
  - apply (Sorted_unique_strong pair_le); [|done| |].
    + intros a b Ha Hb. apply (pair_le_antisym t); [done|by rewrite <- Hperm|].
      by rewrite merge_sort_Permutation in Hb.
    + apply Sorted_merge_sort. apply _.
    + by rewrite merge_sort_Permutation.
  - apply (StronglySorted_before t); [done| | |].
    + intros x. by rewrite Hperm.
    + rewrite Hperm. by apply NoDup_pairs.
    + by apply Sorted_StronglySorted; [apply _|].
Qed.

Lemma small_table_wf : table_wf small_table.
Proof.
  apply (table_inc_wf _ (str "ABC")); [|by vm_compute|reflexivity].
  apply (table_inc_wf _ (str "RDV2")); [|by vm_compute|reflexivity].
  apply table_init_wf. reflexivity.
Qed.

Lemma sorted_pairs_unique_witness :
  [mkPair (str "ABC") 1; mkPair (str "RDV2") 1]
  = merge_sort pair_le (collect_pairs small_table)
  ∧ StronglySorted pair_before [mkPair (str "ABC") 1; mkPair (str "RDV2") 1].
Proof.
  apply (sorted_pairs_unique small_table).
  - apply small_table_wf.
  - split.
    + vm_compute. first [reflexivity | apply perm_swap].
    + repeat constructor. unfold pair_le. vm_compute. discriminate.
Defined.

(** ** [main] *)

Lemma process_loop_status n : ∀ fp st r st',
  process_loop n fp st = Some (Returns r st') → r = 0 ∨ r = 1.
Proof.
  induction n as [|n IH]; intros fp st r st' H; [done|].
  simpl in H. unfold process_body in H.
  destruct fp as [|c fp0]; simpl in H; [inversion H; auto|].
  destruct (negb (is_char c dquote)); [by eapply IH|].
  destruct (read_json_string fp0) as [[k fp1]|]; [|inversion H; auto].
  destruct (skip_ws fp1) as [c1 fp2].
  destruct (negb (bool_decide (c1 = Some ":"%char))); [by eapply IH|].
  destruct (skip_ws fp2) as [[cv|] fp3]; [|inversion H; auto].
  destruct (strcmp_eq k KEY_MODEL && is_char cv dquote).
  - destruct (read_json_string fp3) as [[v fp4]|]; [|inversion H; auto].
    by eapply IH.
  - destruct (consume_json_value fp3 (Some cv)) as [fp4| |];
      [by eapply IH|inversion H; auto|done].
Qed.

Lemma report_sorted t :
  table_wf t →
  report t =
  Unique_models (size t) :: (line_of <$> merge_sort pair_le (pair_of <$> entries t)).
Proof.
  intros Hwf. unfold report.
  rewrite (collect_pairs_entries t (wf_len t Hwf)).
  assert (Z.to_nat (size t) = length (pair_of <$> entries t)) as ->.
  { rewrite length_fmap, (wf_size t Hwf). lia. }
  rewrite firstn_all.
  assert (length (pair_of <$> entries t)
          = length (merge_sort pair_le (pair_of <$> entries t))) as ->.
  { apply Permutation_length. by rewrite merge_sort_Permutation. }
  by rewrite firstn_all.
Qed.

(** X17. The report of a run. When [main] is given one argument, the
    file opens, it is shorter than [2^60] bytes and the scan returns 1,
    [main] exits with status 0 after writing the number of distinct
    values emitted and one line for each of them, with the number of
    times it was emitted; every line has a larger count than the lines
    after it, or the same count and a key that [strcmp] puts before
    theirs. *)
Theorem main_report prog path fopen_rb fp st :
  fopen_rb path = Some fp →
  Z.of_nat (length fp) < 2 ^ 60 →
  process_file fp initial_state = Some (Returns 1 st) →
  ∃ pairs,
    main [prog; path] fopen_rb =
      Exit EXIT_SUCCESS
           (Unique_models (Z.of_nat (length pairs)) :: (line_of <$> pairs))
    ∧ length pairs = distinct (emitted st)
    ∧ StronglySorted pair_before pairs
    ∧ (∀ k n, mkPair k n ∈ pairs ↔
              k ∈ emitted st ∧ n = Z.of_nat (occurrences k (emitted st))).
Proof.
  intros Hopen Hlen Hrun.
  destruct (scan_facts fp 1 st Hrun Hlen) as (Hwf & _ & Hsize & Hget & Hkeys).
  exists (merge_sort pair_le (pair_of <$> entries (table st))).
  assert (length (merge_sort pair_le (pair_of <$> entries (table st)))
          = length (entries (table st))) as Hl.
  { rewrite <- (length_fmap pair_of). apply Permutation_length.
    by rewrite merge_sort_Permutation. }
  split_and!.
  - unfold main. rewrite Hopen, Hrun. simpl.
    rewrite report_sorted by done. by rewrite Hl, (wf_size _ Hwf).
  - apply Nat2Z.inj. by rewrite Hl, <- (wf_size _ Hwf).
  - apply (StronglySorted_before (table st)); [done| | |].
    + intros x. by rewrite merge_sort_Permutation.
    + rewrite merge_sort_Permutation. by apply NoDup_pairs.
    + apply StronglySorted_merge_sort; apply _.
  - intros k n. rewrite merge_sort_Permutation, list_elem_of_fmap. split.
    + intros (e & [= -> ->] & He). split.
      * apply Hkeys. by apply list_elem_of_fmap_2.
      * by rewrite <- Hget, get_count_stored.
    + intros [Hk ->]. apply Hkeys in Hk.
      apply list_elem_of_fmap in Hk as (e & -> & He).
      exists e. split; [|done]. unfold pair_of. f_equal.
      by rewrite <- Hget, get_count_stored.
Qed.

Lemma main_report_witness :
  ∃ pairs,
    main [str "model_count"; str "in.json"] (λ _, Some test_input_1) =
      Exit EXIT_SUCCESS
           (Unique_models (Z.of_nat (length pairs)) :: (line_of <$> pairs))
    ∧ length pairs = distinct (emitted (final_state test_input_1))
    ∧ StronglySorted pair_before pairs
    ∧ (∀ k n, mkPair k n ∈ pairs ↔
              k ∈ emitted (final_state test_input_1)
              ∧ n = Z.of_nat (occurrences k (emitted (final_state test_input_1)))).
Proof.
  apply (main_report (str "model_count") (str "in.json") (λ _, Some test_input_1)
           test_input_1 (final_state test_input_1)).
  - reflexivity.
  - vm_compute. reflexivity.
  - vm_compute. reflexivity.
Defined.

(** X18. [main] exits with status 0 or 1. It exits with 0 only when it
    was given one argument, the file opened and the scan returned 1, and
    what it has written is then the report of the table of that scan;
    when it exits with 1 it has written nothing on the standard
    output. *)
Theorem main_exit_status argv fopen_rb status out :
  main argv fopen_rb = Exit status out →
  (status = EXIT_SUCCESS
   ∧ ∃ prog path fp st,
       argv = [prog; path] ∧ fopen_rb path = Some fp
       ∧ process_file fp initial_state = Some (Returns 1 st)
       ∧ out = report (table st))
  ∨ (status = EXIT_FAILURE ∧ out = []).
Proof.
  unfold main. intros H.
  destruct argv as [|prog [|path [|? ?]]]; try (inversion H; auto).
  destruct (fopen_rb path) as [fp|] eqn:Hopen; [|inversion H; auto].
  destruct (process_file fp initial_state) as [[r st|]|] eqn:Hrun; try done.
  destruct (process_loop_status _ _ _ _ _ Hrun) as [->| ->]; simpl in H.
  - inversion H; auto.
  - inversion H; subst. left. split; [done|]. by exists prog, path, fp, st.
Qed.

Lemma main_exit_status_witness :
  (EXIT_FAILURE = EXIT_SUCCESS
   ∧ ∃ prog path fp st,
       [str "model_count"] = [prog; path] ∧ (λ _, None) path = Some fp
       ∧ process_file fp initial_state = Some (Returns 1 st)
       ∧ [] = report (table st))
  ∨ (EXIT_FAILURE = EXIT_FAILURE ∧ @nil out_line = []).
Proof.
  apply (main_exit_status [str "model_count"] (λ _, None)). reflexivity.
Defined.

(** ** Containers and the kind of their brackets *)

(** X19. The container loop looks at a byte only to see whether it is a
    quote, a backslash, an opening or a closing bracket: a change of the
    bytes that keeps these four classes, such as a brace for a bracket,
    changes nothing to what it skips. It never checks that a closing
    bracket is of the kind of the bracket it closes. *)
Theorem container_loop_kind_blind (f : ascii → ascii) fp :
  (∀ c, is_char (f c) dquote = is_char c dquote) →
  (∀ c, is_char (f c) backslash = is_char c backslash) →
  (∀ c, is_open (f c) = is_open c) →
  (∀ c, is_close (f c) = is_close c) →
  ∀ depth in_string esc,
    container_loop depth in_string esc (f <$> fp) =
    skip_map f (container_loop depth in_string esc fp).
Proof.
  intros Hq Hb Ho Hc.
  induction fp as [|c fp IH]; intros depth in_string esc; simpl.
  - by destruct (depth <=? 0).
  - destruct (depth <=? 0); [done|].
    rewrite Hq, Hb, Ho, Hc.
    repeat match goal with
           | |- context [if ?b then _ else _] => destruct b
           end; (done || apply IH).
Qed.

Lemma swap_kind_classes c :
  is_char (swap_kind c) dquote = is_char c dquote
  ∧ is_char (swap_kind c) backslash = is_char c backslash
  ∧ is_open (swap_kind c) = is_open c
  ∧ is_close (swap_kind c) = is_close c.
Proof.
  destruct c as [[] [] [] [] [] [] [] []]; vm_compute; done.
Qed.

Lemma container_loop_kind_blind_witness :
  container_loop 1 false false (swap_kind <$> str "1,[2]},3") =
  skip_map swap_kind (container_loop 1 false false (str "1,[2]},3")).
Proof.
  apply (container_loop_kind_blind swap_kind (str "1,[2]},3"));
    intros c; apply swap_kind_classes.
Defined.

(** ** Documents *)

Lemma process_file_skip pre : ∀ rest st,
  no_quote pre → process_file (pre ++ rest) st = process_file rest st.
Proof.
  induction pre as [|c pre IH]; intros rest st Hpre; [done|].
  apply Forall_cons_1 in Hpre as [Hc Hpre]. simpl.
  rewrite process_file_other by (by apply is_char_neq). by apply IH.
Qed.

Lemma escaped_literal k :
  read_json_string (json_escape k ++ [dquote]) = Some (k, []).
Proof.
  induction k as [|c k IH]; [done|].
  unfold json_escape in *. simpl.
  destruct (is_char c dquote) eqn:Hq.
  { apply is_char_eq in Hq as ->. simpl. by rewrite IH. }
  destruct (is_char c backslash) eqn:Hb.
  { apply is_char_eq in Hb as ->. simpl. by rewrite IH. }
  simpl. by rewrite Hq, Hb, IH.
Qed.

Lemma process_file_string_value lit key ws1 ws2 vlit val rest st :
  read_json_string lit = Some (key, []) →
  all_space ws1 → all_space ws2 →
  read_json_string vlit = Some (val, []) →
  process_file (dquote :: lit ++ ws1 ++ ":"%char :: ws2 ++
                dquote :: vlit ++ rest) st =
  process_file rest (if strcmp_eq key KEY_MODEL then emit st val else st).
Proof.
  intros Hlit Hws1 Hws2 Hval.
  rewrite (process_file_key lit key) by done.
  unfold after_colon, consume_json_value. simpl.
  rewrite (read_json_string_app vlit val [] rest Hval). simpl.
  by destruct (strcmp_eq key KEY_MODEL).
Qed.

(** X20. A key and its string value at the head of the stream: when the
    key is the target key the value is decoded and emitted, once, and the
    scan goes on after its closing quote; when it is another key the value
    is skipped and nothing is emitted. *)
Theorem string_value_scan lit key ws1 ws2 vlit val rest st :
  read_json_string lit = Some (key, []) →
  all_space ws1 → all_space ws2 →
  read_json_string vlit = Some (val, []) →
  process_file (dquote :: lit ++ ws1 ++ ":"%char :: ws2 ++
                dquote :: vlit ++ rest) st =
  process_file rest (if strcmp_eq key KEY_MODEL then emit st val else st).
Proof. apply process_file_string_value. Qed.

Lemma string_value_scan_witness :
  process_file (dquote :: json "model'" ++ [] ++ ":"%char :: str " " ++
                dquote :: json "RDV2'" ++ str "}") initial_state =
  process_file (str "}") (emit initial_state (str "RDV2")).
Proof.
  apply (string_value_scan (json "model'") (str "model") [] (str " ")
           (json "RDV2'") (str "RDV2") (str "}") initial_state).
  - reflexivity.
  - constructor.
  - by repeat constructor.
  - reflexivity.
Defined.

Lemma render_field_app f rest :
  render_field f ++ rest =
  dquote :: (json_escape (fkey f) ++ [dquote]) ++ fws1 f ++
  ":"%char :: fws2 f ++ (render_value (fvalue f) ++ fsep f ++ rest).
Proof.
  unfold render_field. simpl. f_equal.
  repeat (rewrite <- app_assoc; simpl). done.
Qed.

Lemma process_file_field f rest st :
  field_ok f →
  process_file (render_field f ++ rest) st =
  process_file rest
    (match fvalue f with
     | JString s => if strcmp_eq (fkey f) KEY_MODEL then emit st s else st
     | JToken _ => st
     end).
Proof.
  intros (Hws1 & Hws2 & Hsep & Hv). rewrite render_field_app.
  destruct (fvalue f) as [s|tok] eqn:Hf.
  - assert (render_value (JString s) ++ fsep f ++ rest
            = dquote :: (json_escape s ++ [dquote]) ++ fsep f ++ rest) as ->
      by (simpl; by rewrite <- app_assoc).
    rewrite (process_file_string_value _ (fkey f) _ _ _ s)
      by (done || apply escaped_literal).
    by apply process_file_skip.
  - destruct Hv as (Htok & Hnq & (t0 & tok' & -> & Hopen) & (d & sep' & Hd & Hdelim)).
    rewrite Hd in *.
    apply Forall_cons_1 in Hnq as [Hq Hnq].
    rewrite (process_file_key _ (fkey f));
      [|apply escaped_literal|done|done|apply (Forall_cons_1 _ _ _ Htok)].
    simpl. apply is_char_neq in Hq. rewrite Hq, andb_false_r.
    assert (consume_json_value (tok' ++ d :: sep' ++ rest) (Some t0)
            = Skipped (scalar_loop (Some t0) (tok' ++ d :: sep' ++ rest))) as ->.
    { unfold consume_json_value. unfold is_open in Hopen.
      apply orb_false_iff in Hopen as [Ho1%is_char_neq Ho2%is_char_neq].
      apply is_char_neq in Hq.
      rewrite !bool_decide_eq_false_2 by congruence. done. }
    rewrite scalar_loop_token by done.
    apply Forall_cons_1 in Hsep as [Hdq Hsep].
    destruct (is_delim d) eqn:Hdd.
    + apply (process_file_skip (d :: sep') rest st). by constructor.
    + destruct Hdelim as [?|Hsp]; [done|]. rewrite Hsp.
      by apply process_file_skip.
Qed.

Lemma process_file_fields fs : ∀ st,
  Forall field_ok fs →
  process_file (render_fields fs) st =
  Some (Returns 1 (foldl emit st (model_values fs))).
Proof.
  induction fs as [|f fs IH]; intros st Hfs.
  - by rewrite process_file_unfold.
  - apply Forall_cons_1 in Hfs as [Hf Hfs].
    change (render_fields (f :: fs)) with (render_field f ++ render_fields fs).
    rewrite process_file_field by done.
    rewrite IH by done. simpl.
    by destruct (fvalue f); [destruct (strcmp_eq (fkey f) KEY_MODEL)|].
Qed.

(** X21. The scan of a document. For every text made of bytes without
    quote and of a run of fields, each a key, a colon and a string or an
    unquoted token, with bytes without quote between them, [process_file]
    returns 1 and has emitted the string values of the fields whose key
    is the target key, each once, in the order of the text, and nothing
    else. *)
Theorem document_scan pre fs st :
  no_quote pre → Forall field_ok fs →
  process_file (pre ++ render_fields fs) st =
  Some (Returns 1 (foldl emit st (model_values fs))).
Proof.
  intros Hpre Hfs. rewrite process_file_skip by done.
  by apply process_file_fields.
Qed.

Lemma document_scan_witness :
  process_file
    (str "[{" ++ render_fields
       [mkField (str "id") [] [] (JToken (str "1")) (str ",");
        mkField (str "model") [] (str " ") (JString (str "RDV2")) (str "}]")])
    initial_state =
  Some (Returns 1 (emit initial_state (str "RDV2"))).
Proof.
  apply (document_scan (str "[{")
           [mkField (str "id") [] [] (JToken (str "1")) (str ",");
            mkField (str "model") [] (str " ") (JString (str "RDV2")) (str "}]")]
           initial_state).
  - repeat constructor; discriminate.
  - repeat constructor; simpl; try discriminate; try reflexivity.
    + by exists "1"%char, [].
    + exists ","%char, []. split; [done|by left].
Defined.
